(** * folly/experimental/coro/Promise.h

    A shallow embedding of the coroutine promise of folly's experimental
    coroutine library: the lifecycle state [PromiseState], the promise
    object with its result cell, atomic state, stored awaiter and bound
    executor, the completion hooks [return_value], [return_void] and
    [unhandled_exception], the [await_transform] overloads for peer futures
    and for the current-executor query, and the [FinalSuspender] with its
    compare-exchange loop.

    The atomic [state_] is shared with other threads.  An execution of
    [FinalSuspender::await_suspend] is therefore run against a schedule that
    says, for every compare-exchange attempt, what the other threads stored
    since the previous atomic access and whether the weak compare-exchange
    fails spuriously.  Every run yields the value returned, the promise as it
    is left, and the trace of the accesses performed.  Atomic accesses are
    interleaved one at a time; the acquire and release orderings of the
    source are not modelled.

    The headers Promise.h includes (Try.h, AwaitWrapper.h, Utils.h, the
    coroutine Future.h, glog) are not part of the sources; what is taken
    from them is marked where it is introduced. *)

From Stdlib Require Import List Bool Arith NArith ZArith Lia.
Import ListNotations.

Set Implicit Arguments.

(** ** enum class PromiseState *)

Inductive PromiseState : Type :=
| EMPTY        (* Coroutine hasn't started *)
| DETACHED     (* Coroutine is running, the managing Future was destroyed *)
| HAS_AWAITER  (* Some other coroutine is waiting on this coroutine *)
| HAS_RESULT.  (* Coroutine is finished, result is stored inside Promise *)

Definition PromiseState_eqb (a b : PromiseState) : bool :=
  match a, b with
  | EMPTY, EMPTY | DETACHED, DETACHED
  | HAS_AWAITER, HAS_AWAITER | HAS_RESULT, HAS_RESULT => true
  | _, _ => false
  end.

Infix "==" := PromiseState_eqb (at level 70, no associativity).

(** The edges of the lifecycle state machine, as the design lists them:
    EMPTY to DETACHED, EMPTY to HAS_AWAITER, HAS_AWAITER to HAS_RESULT and
    EMPTY to HAS_RESULT.  The code is measured against this set. *)
Definition legal_edge (a b : PromiseState) : bool :=
  match a, b with
  | EMPTY, DETACHED | EMPTY, HAS_AWAITER
  | HAS_AWAITER, HAS_RESULT | EMPTY, HAS_RESULT => true
  | _, _ => false
  end.

(** The edges left to the actors other than the finalizing coroutine: the
    owner of the handle (detach) and the awaiting coroutine. *)
Definition external_edge (a b : PromiseState) : bool :=
  match a, b with
  | EMPTY, DETACHED | EMPTY, HAS_AWAITER => true
  | _, _ => false
  end.

(** ** Pointers and handles

    [Executor*] and [coroutine_handle<>] are addresses; the null pointer and
    the default-constructed handle are address 0. *)

Definition Executor_ptr := N.
Definition nullptr : Executor_ptr := 0%N.
Definition coroutine_handle := N.
Definition null_handle : coroutine_handle := 0%N.

(** Modelled from the spec: [folly::Try<T>] (folly/Try.h is not among the
    sources), the result cell that holds "empty", a "value" or an "error". *)
Inductive Try (T E : Type) : Type :=
| TryNothing
| TryValue (v : T)
| TryException (e : E).

Arguments TryNothing {T E}.
Arguments TryValue {T E} v.
Arguments TryException {T E} e.

(** ** class Promise<T> : public PromiseBase<T>

    [E] is [folly::exception_wrapper]. *)
Record Promise (T E : Type) : Type := mkPromise {
  result_ : Try T E;               (* folly::Try<T> result_ *)
  state_ : PromiseState;           (* std::atomic<State> state_{State::EMPTY} *)
  awaiter_ : coroutine_handle;     (* coroutine_handle<> awaiter_ *)
  executor_ : Executor_ptr         (* Executor* executor_{nullptr} *)
}.

(** [Promise() {}]: the members take their default initializers; what a
    default-constructed [Try<T>] holds is declared in Try.h and is taken as
    an argument. *)
Definition Promise_ctor {T E} (default_result : Try T E) : Promise T E :=
  {| result_ := default_result; state_ := EMPTY;
     awaiter_ := null_handle; executor_ := nullptr |}.

Definition set_result {T E} (p : Promise T E) (r : Try T E) : Promise T E :=
  {| result_ := r; state_ := state_ p;
     awaiter_ := awaiter_ p; executor_ := executor_ p |}.

Definition set_state {T E} (p : Promise T E) (s : PromiseState) : Promise T E :=
  {| result_ := result_ p; state_ := s;
     awaiter_ := awaiter_ p; executor_ := executor_ p |}.

Definition set_awaiter {T E} (p : Promise T E) (h : coroutine_handle)
  : Promise T E :=
  {| result_ := result_ p; state_ := state_ p;
     awaiter_ := h; executor_ := executor_ p |}.

(** ** Accesses and runs *)

Inductive event (T E : Type) : Type :=
| WriteResult (r : Try T E)             (* an assignment to result_ *)
| Load (s : PromiseState)               (* state_.load(acquire) read s *)
| Observe (s : PromiseState)            (* the loop body starts with state = s *)
| Interfere (old new : PromiseState)    (* another thread stored new over old *)
| CasFail (expected actual : PromiseState)
| CasOk (old new : PromiseState)        (* this thread replaced old by new *)
| Resume (h : coroutine_handle).        (* h.resume() *)

Arguments WriteResult {T E} r.
Arguments Load {T E} s.
Arguments Observe {T E} s.
Arguments Interfere {T E} old new.
Arguments CasFail {T E} expected actual.
Arguments CasOk {T E} old new.
Arguments Resume {T E} h.

Record run (T E A : Type) : Type := mkRun {
  ret : A;
  final : Promise T E;
  trace : list (event T E)
}.

(** A run that first performs the accesses [evs]. *)
Definition after {T E A} (evs : list (event T E)) (r : run T E A) : run T E A :=
  {| ret := ret r; final := final r; trace := evs ++ trace r |}.

Section Counting.
Context {T E : Type}.

Definition is_resume (e : event T E) : bool :=
  match e with Resume _ => true | _ => false end.

Definition is_result_write (e : event T E) : bool :=
  match e with WriteResult _ => true | _ => false end.

Definition is_cas (e : event T E) : bool :=
  match e with CasFail _ _ | CasOk _ _ => true | _ => false end.

(** How often a continuation was resumed. *)
Definition resumptions (tr : list (event T E)) : nat :=
  length (filter is_resume tr).

(** How often the result cell was assigned. *)
Definition result_writes (tr : list (event T E)) : nat :=
  length (filter is_result_write tr).

(** How often the compare-exchange was attempted, that is, how many times
    the loop body ran up to its loop condition. *)
Definition cas_attempts (tr : list (event T E)) : nat :=
  length (filter is_cas tr).

(** A compare-exchange that failed because it found another value than the
    expected one; the other failures are spurious. *)
Definition is_contended (e : event T E) : bool :=
  match e with
  | CasFail expected actual => negb (expected == actual)
  | _ => false
  end.

(** How often the compare-exchange failed on a changed [state_]. *)
Definition contended_failures (tr : list (event T E)) : nat :=
  length (filter is_contended tr).

(** The stores this thread made to [state_], as pairs (old, new). *)
Fixpoint transitions (tr : list (event T E))
  : list (PromiseState * PromiseState) :=
  match tr with
  | [] => []
  | CasOk old new :: tr' => (old, new) :: transitions tr'
  | _ :: tr' => transitions tr'
  end.

(** The state that the successful compare-exchange replaced, if one
    succeeded. *)
Definition cas_prior (tr : list (event T E)) : option PromiseState :=
  match transitions tr with
  | [] => None
  | (old, _) :: _ => Some old
  end.

(** The value of [state_] after the accesses of [tr], starting from [s]:
    stores of other threads and of this thread, in order. *)
Fixpoint replay (s : PromiseState) (tr : list (event T E)) : PromiseState :=
  match tr with
  | [] => s
  | Interfere _ new :: tr' => replay new tr'
  | CasOk _ new :: tr' => replay new tr'
  | _ :: tr' => replay s tr'
  end.

(** The values the local variable [state] held at the head of the loop
    body. *)
Fixpoint observed (tr : list (event T E)) : list PromiseState :=
  match tr with
  | [] => []
  | Observe s :: tr' => s :: observed tr'
  | _ :: tr' => observed tr'
  end.

(** Every store of another thread is an edge the state machine leaves to
    it. *)
Fixpoint external_edges_only (tr : list (event T E)) : bool :=
  match tr with
  | [] => true
  | Interfere old new :: tr' => external_edge old new && external_edges_only tr'
  | _ :: tr' => external_edges_only tr'
  end.
End Counting.

(** ** The completion hooks *)

Section Hooks.
Context {T E : Type}.

(** [std::exception_ptr] and
    [exception_wrapper::from_exception_ptr] (folly/ExceptionWrapper.h). *)
Variable exception_ptr : Type.
Variable from_exception_ptr : exception_ptr -> E.

(** [template <typename U> void PromiseBase<T>::return_value(U&& value)]:
    [result_ = Try<T>(std::forward<U>(value));]
    A [Try<T>] is built from a [T], so the value of type [U] is converted
    to [T] before it is stored; [to_T] is that conversion, fixed by the two
    types (the identity when [U] is [T]). *)
Definition return_value {U : Type} (to_T : U -> T) (value : U)
  (p : Promise T E) : run T E unit :=
  let r := TryValue (to_T value) in
  {| ret := tt; final := set_result p r; trace := [WriteResult r] |}.

(** [Promise<T>::unhandled_exception]:
    [this->result_ = Try<T>(exception_wrapper::from_exception_ptr(
       std::current_exception()));]
    The exception in flight is the argument [current_exception]. *)
Definition unhandled_exception (current_exception : exception_ptr)
  (p : Promise T E) : run T E unit :=
  let r := TryException (from_exception_ptr current_exception) in
  {| ret := tt; final := set_result p r; trace := [WriteResult r] |}.

End Hooks.

(** [PromiseBase<void>::return_void() {}], a member of the specialization
    for [void] only. *)
Definition return_void {E} (p : Promise unit E) : run unit E unit :=
  {| ret := tt; final := p; trace := [] |}.

(** The ways the body of a coroutine ends and the hook the language calls
    for each: [co_return v;] calls [return_value(v)] with [v] of some type
    [U] that converts to [T], [co_return;] or
    flowing off the end of a [void] coroutine calls [return_void()], an
    exception that leaves the body calls [unhandled_exception()]. *)
Inductive completion (X : Type) : Type -> Type :=
| co_return {T U} (to_T : U -> T) (v : U) : completion X T
| co_return_void : completion X unit
| uncaught {T} (e : X) : completion X T.

Arguments co_return {X T U} to_T v.
Arguments co_return_void {X}.
Arguments uncaught {X T} e.

Definition body_completion {E X T} (from_exception_ptr : X -> E)
  (c : completion X T) : Promise T E -> run T E unit :=
  match c in completion _ T0 return Promise T0 E -> run T0 E unit with
  | co_return to_T v => return_value to_T v
  | co_return_void => return_void
  | uncaught e => unhandled_exception from_exception_ptr e
  end.

(** ** Other threads *)

(** What another thread may do to the promise between two atomic accesses
    of the finalizing coroutine. *)
Inductive env_step : Type :=
| StoreState (s : PromiseState)
| StoreAwaiter (h : coroutine_handle).

(** One compare-exchange attempt: the stores of other threads that became
    visible since the previous atomic access, and whether the attempt fails
    although the expected value is there ([compare_exchange_weak] may). *)
Record tick : Type := mkTick {
  stores : list env_step;
  spurious : bool
}.

Definition quiet : tick := {| stores := []; spurious := false |}.
Definition hiccup : tick := {| stores := []; spurious := true |}.

Fixpoint interfere {T E} (steps : list env_step) (p : Promise T E)
  : Promise T E * list (event T E) :=
  match steps with
  | [] => (p, [])
  | StoreState s :: steps' =>
      let (q, evs) := interfere steps' (set_state p s) in
      (q, Interfere (state_ p) s :: evs)
  | StoreAwaiter h :: steps' => interfere steps' (set_awaiter p h)
  end.

Definition spurious_failures (sched : list tick) : nat :=
  length (filter spurious sched).

(** ** class Promise<T>::FinalSuspender *)

(** What a call has come to on a given schedule: it returned, the process
    died in [DCHECK], or the schedule ended with the call still in its
    loop. *)
Inductive outcome : Type :=
| Returned (b : bool)
| DcheckFailed
| Running.

Section FinalSuspender.
Context {T E : Type}.

(** [DCHECK] (glog/logging.h) aborts in debug builds and is compiled out
    when NDEBUG is defined. *)
Variable dcheck_enabled : bool.

(** [bool await_ready()]:
    [return promise_.state_.load(acquire) == State::DETACHED;] *)
Definition await_ready (p : Promise T E) : run T E bool :=
  {| ret := state_ p == DETACHED; final := p; trace := [Load (state_ p)] |}.

(** The statements after the loop:
    [if (state == State::HAS_AWAITER) { promise_.awaiter_.resume(); }
     return true;] *)
Definition resume_awaiter (state : PromiseState) (p : Promise T E)
  : run T E outcome :=
  {| ret := Returned true; final := p;
     trace := if state == HAS_AWAITER then [Resume (awaiter_ p)] else [] |}.

(** The [do { ... } while (!compare_exchange_weak(state, HAS_RESULT, ...))]
    loop, entered with the local variable [state].  A failed exchange loads
    the current value into [state]; a successful one leaves [state] as it
    was and stores [HAS_RESULT]. *)
Fixpoint cas_loop (sched : list tick) (p : Promise T E) (state : PromiseState)
  : run T E outcome :=
  if state == DETACHED then
    {| ret := Returned false; final := p; trace := [Observe state] |}
  else if dcheck_enabled && (state == HAS_RESULT) then
    {| ret := DcheckFailed; final := p; trace := [Observe state] |}
  else
    match sched with
    | [] => {| ret := Running; final := p; trace := [Observe state] |}
    | t :: sched' =>
        let (p1, evs) := interfere (stores t) p in
        if (state_ p1 == state) && negb (spurious t) then
          after (Observe state :: evs ++ [CasOk state HAS_RESULT])
                (resume_awaiter state (set_state p1 HAS_RESULT))
        else
          after (Observe state :: evs ++ [CasFail state (state_ p1)])
                (cas_loop sched' p1 (state_ p1))
    end.

(** [bool await_suspend(coroutine_handle<>)]:
    [auto state = promise_.state_.load(acquire);] and the loop.  [p] is the
    promise as that load finds it. *)
Definition await_suspend (sched : list tick) (p : Promise T E)
  : run T E outcome :=
  after [Load (state_ p)] (cas_loop sched p (state_ p)).

End FinalSuspender.

(** ** await_transform *)

(** Modelled from the spec: the peer task handle [coro::Future<U>]
    (folly/experimental/coro/Future.h is not among the sources), of which
    [await_transform] reads [promise_->executor_]. *)
Record Future (U E : Type) : Type := mkFuture {
  promise_ : Promise U E
}.

(** Modelled from the spec: [AwaitWrapper<Awaitable>]
    (folly/experimental/coro/AwaitWrapper.h is not among the sources), the
    await adapter that wraps an awaited value, alone or together with the
    executor on which the awaiting coroutine is to be resumed.  Created
    without an executor it attaches the awaiting coroutine directly;
    created with one it makes exactly one hop to that executor after the
    value is ready. *)
Record AwaitWrapper (A : Type) : Type := mkAwaitWrapper {
  awaitable_ : A;
  hop_to : option Executor_ptr
}.

Definition AwaitWrapper_create {A} (awaitable : A) : AwaitWrapper A :=
  {| awaitable_ := awaitable; hop_to := None |}.

Definition AwaitWrapper_create_via {A} (awaitable : A) (executor : Executor_ptr)
  : AwaitWrapper A :=
  {| awaitable_ := awaitable; hop_to := Some executor |}.

Definition executor_hops {A} (w : AwaitWrapper A) : nat :=
  match hop_to w with
  | None => 0
  | Some _ => 1
  end.

(** Modelled from the spec: [AwaitableReady<T>]
    (folly/experimental/coro/Utils.h is not among the sources), an
    awaitable that is ready at once and yields the value it was built
    from. *)
Record AwaitableReady (V : Type) : Type := mkAwaitableReady {
  value_ : V
}.

Definition AwaitableReady_await_ready {V} (a : AwaitableReady V) : bool := true.
Definition AwaitableReady_await_resume {V} (a : AwaitableReady V) : V := value_ a.

(** The tag type [getCurrentExecutor] (Utils.h). *)
Inductive getCurrentExecutor : Type := getCurrentExecutor_tag.

Section AwaitTransform.
Context {T U E : Type}.

(** [AwaitWrapper<Future<U>> await_transform(Future<U>& future)] *)
Definition await_transform_Future (p : Promise T E) (future : Future U E)
  : AwaitWrapper (Future U E) :=
  if N.eqb (executor_ (promise_ future)) (executor_ p) then
    AwaitWrapper_create future
  else
    AwaitWrapper_create_via future (executor_ p).

(** [AwaitWrapper<Future<U>> await_transform(Future<U>&& future)] *)
Definition await_transform_Future_rvalue (p : Promise T E) (future : Future U E)
  : AwaitWrapper (Future U E) :=
  if N.eqb (executor_ (promise_ future)) (executor_ p) then
    AwaitWrapper_create future
  else
    AwaitWrapper_create_via future (executor_ p).

(** [auto await_transform(getCurrentExecutor)]:
    [return AwaitableReady<Executor*>(executor_);] *)
Definition await_transform_getCurrentExecutor (p : Promise T E)
  (_ : getCurrentExecutor) : AwaitableReady Executor_ptr :=
  {| value_ := executor_ p |}.

End AwaitTransform.

(** ** Sample frames and schedules *)

(** A frame of a coroutine returning a number, bound to the executor at
    address 3, in lifecycle state [s], with the handle 7 stored. *)
Definition sample_frame (s : PromiseState) : Promise nat nat :=
  {| result_ := TryNothing; state_ := s; awaiter_ := 7%N; executor_ := 3%N |}.

(** A freshly constructed frame of a [void] coroutine; [Try<void>] is
    default-constructed holding the void value. *)
Definition void_frame : Promise unit nat := Promise_ctor (TryValue tt).

(** A peer future whose promise is bound to the executor at [e]. *)
Definition peer_future (e : Executor_ptr) : Future nat nat :=
  {| promise_ :=
       {| result_ := TryNothing; state_ := EMPTY;
          awaiter_ := null_handle; executor_ := e |} |}.

(** The first exchange fails spuriously; then a coroutine registers itself
    as awaiter (handle 9) and makes the second exchange fail; the third
    fails spuriously again and the fourth goes through. *)
Definition racing_schedule : list tick :=
  [ hiccup;
    {| stores := [StoreAwaiter 9%N; StoreState HAS_AWAITER]; spurious := false |};
    hiccup; quiet; quiet ].

(** ** Further counts and sample conversions *)

Definition is_interfere {T E} (e : event T E) : bool :=
  match e with Interfere _ _ => true | _ => false end.

(** How many stores of other threads to [state_] a run has seen. *)
Definition interferences {T E} (tr : list (event T E)) : nat :=
  length (filter is_interfere tr).

(** The conversion of a [long long] to an [int] that
    [return_value(U&&)] goes through in a [Promise<int>] when the body
    returns a [long long]: the value modulo 2^32, read as a signed 32-bit
    number. *)
Definition int_of_long_long (z : Z) : Z :=
  ((z + 2147483648) mod 4294967296 - 2147483648)%Z.

(** A frame of a coroutine returning an [int]. *)
Definition int_frame (s : PromiseState) : Promise Z nat :=
  {| result_ := TryNothing; state_ := s; awaiter_ := 7%N; executor_ := 3%N |}.

(** * Properties *)

(** ** The state comparison *)

Lemma PromiseState_eqb_eq (a b : PromiseState) : (a == b) = true <-> a = b.
Proof. destruct a, b; simpl; split; congruence. Qed.

Lemma PromiseState_eqb_refl (a : PromiseState) : (a == a) = true.
Proof. destruct a; reflexivity. Qed.

Lemma PromiseState_eqb_neq (a b : PromiseState) : (a == b) = false <-> a <> b.
Proof. destruct a, b; simpl; split; congruence. Qed.

Lemma external_edge_legal (a b : PromiseState) :
  external_edge a b = true -> legal_edge a b = true.
Proof. destruct a, b; simpl; congruence. Qed.

Lemma external_edge_inv (a b : PromiseState) :
  external_edge a b = true -> a = EMPTY /\ (b = DETACHED \/ b = HAS_AWAITER).
Proof. destruct a, b; simpl; intuition congruence. Qed.

(** ** Traces *)

Section TraceFacts.
Context {T E : Type}.
Implicit Types tr a b : list (event T E).

Lemma resumptions_app a b : resumptions (a ++ b) = resumptions a + resumptions b.
Proof. unfold resumptions. now rewrite filter_app, length_app. Qed.

Lemma result_writes_app a b :
  result_writes (a ++ b) = result_writes a + result_writes b.
Proof. unfold result_writes. now rewrite filter_app, length_app. Qed.

Lemma cas_attempts_app a b : cas_attempts (a ++ b) = cas_attempts a + cas_attempts b.
Proof. unfold cas_attempts. now rewrite filter_app, length_app. Qed.

Lemma contended_failures_app a b :
  contended_failures (a ++ b) = contended_failures a + contended_failures b.
Proof. unfold contended_failures. now rewrite filter_app, length_app. Qed.

Lemma contended_failures_cons e tr :
  contended_failures (e :: tr) =
  (if is_contended e then 1 else 0) + contended_failures tr.
Proof. unfold contended_failures. simpl. now destruct (is_contended e). Qed.

Lemma transitions_app a b : transitions (a ++ b) = transitions a ++ transitions b.
Proof.
  induction a as [|e a IH]; simpl; [reflexivity|].
  destruct e; simpl; now rewrite ?IH.
Qed.

Lemma observed_app a b : observed (a ++ b) = observed a ++ observed b.
Proof.
  induction a as [|e a IH]; simpl; [reflexivity|].
  destruct e; simpl; now rewrite ?IH.
Qed.

Lemma replay_app s a b : replay s (a ++ b) = replay (replay s a) b.
Proof.
  revert s; induction a as [|e a IH]; intros s; simpl; [reflexivity|].
  destruct e; apply IH.
Qed.

Lemma external_edges_only_app a b :
  external_edges_only (a ++ b) = external_edges_only a && external_edges_only b.
Proof.
  induction a as [|e a IH]; simpl; [reflexivity|].
  destruct e; rewrite ?IH; try reflexivity.
  now rewrite andb_assoc.
Qed.

Lemma resumptions_cons e tr :
  resumptions (e :: tr) = (if is_resume e then 1 else 0) + resumptions tr.
Proof. unfold resumptions. simpl. now destruct (is_resume e). Qed.

Lemma result_writes_cons e tr :
  result_writes (e :: tr) = (if is_result_write e then 1 else 0) + result_writes tr.
Proof. unfold result_writes. simpl. now destruct (is_result_write e). Qed.

Lemma cas_attempts_cons e tr :
  cas_attempts (e :: tr) = (if is_cas e then 1 else 0) + cas_attempts tr.
Proof. unfold cas_attempts. simpl. now destruct (is_cas e). Qed.

Lemma transitions_cons e tr :
  transitions (e :: tr) =
  match e with CasOk old new => [(old, new)] | _ => [] end ++ transitions tr.
Proof. now destruct e. Qed.

Lemma observed_cons e tr :
  observed (e :: tr) = match e with Observe s => [s] | _ => [] end ++ observed tr.
Proof. now destruct e. Qed.

Lemma external_edges_only_cons e tr :
  external_edges_only (e :: tr) =
  match e with Interfere old new => external_edge old new | _ => true end
  && external_edges_only tr.
Proof. now destruct e. Qed.

Lemma replay_cons s e tr :
  replay s (e :: tr) =
  replay match e with Interfere _ new | CasOk _ new => new | _ => s end tr.
Proof. now destruct e. Qed.

(** ** Stores of other threads *)

(** Other threads write neither the result cell nor the executor here, and
    the trace of their stores holds [Interfere] events only. *)
Lemma interfere_frame (steps : list env_step) (p q : Promise T E) evs :
  interfere steps p = (q, evs) ->
  result_ q = result_ p /\ executor_ q = executor_ p /\
  resumptions evs = 0 /\ cas_attempts evs = 0 /\ result_writes evs = 0 /\
  transitions evs = [] /\ observed evs = [].
Proof.
  revert p q evs; induction steps as [|st steps IH]; intros p q evs H; simpl in H.
  - inversion H; subst. repeat split; reflexivity.
  - destruct st as [s|h].
    + destruct (interfere steps (set_state p s)) as [q' evs'] eqn:Hi.
      inversion H; subst. apply IH in Hi. simpl in Hi. tauto.
    + apply IH in H. simpl in H. exact H.
Qed.

Lemma interfere_no_cas (steps : list env_step) (p q : Promise T E) evs :
  interfere steps p = (q, evs) -> contended_failures evs = 0.
Proof.
  revert p q evs; induction steps as [|st steps IH]; intros p q evs H; simpl in H.
  - inversion H; subst. reflexivity.
  - destruct st as [s|h].
    + destruct (interfere steps (set_state p s)) as [q' evs'] eqn:Hi.
      inversion H; subst. apply IH in Hi. exact Hi.
    + apply IH in H. exact H.
Qed.

(** The trace accounts for every store of another thread. *)
Lemma interfere_replay (steps : list env_step) (p q : Promise T E) evs :
  interfere steps p = (q, evs) -> replay (state_ p) evs = state_ q.
Proof.
  revert p q evs; induction steps as [|st steps IH]; intros p q evs H; simpl in H.
  - inversion H; subst. reflexivity.
  - destruct st as [s|h].
    + destruct (interfere steps (set_state p s)) as [q' evs'] eqn:Hi.
      inversion H; subst. apply IH in Hi. simpl in *. exact Hi.
    + apply IH in H. simpl in H. exact H.
Qed.

(** Along the edges left to them, other threads move [state_] at most once,
    and only out of [EMPTY]. *)
Lemma interfere_external (steps : list env_step) (p q : Promise T E) evs :
  interfere steps p = (q, evs) ->
  external_edges_only evs = true ->
  state_ q = state_ p \/
  (state_ p = EMPTY /\ (state_ q = DETACHED \/ state_ q = HAS_AWAITER)).
Proof.
  revert p q evs; induction steps as [|st steps IH]; intros p q evs H Hext;
    simpl in H.
  - inversion H; subst. now left.
  - destruct st as [s|h].
    + destruct (interfere steps (set_state p s)) as [q' evs'] eqn:Hi.
      inversion H; subst. simpl in Hext.
      apply andb_true_iff in Hext as [He Hext].
      apply external_edge_inv in He as [He Hs].
      apply IH in Hi; [|exact Hext]. simpl in Hi.
      right. split; [exact He|].
      destruct Hi as [Hi|[Hi _]]; [rewrite Hi; exact Hs|].
      destruct Hs; congruence.
    + apply IH in H; [|exact Hext]. simpl in H. exact H.
Qed.

(** What the other threads do to [state_] does not depend on the rest of
    the promise. *)
Lemma interfere_same_state (steps : list env_step) (p q p1 q1 : Promise T E)
  e1 e2 :
  state_ p = state_ q ->
  interfere steps p = (p1, e1) -> interfere steps q = (q1, e2) ->
  state_ p1 = state_ q1 /\ e1 = e2.
Proof.
  revert p q p1 q1 e1 e2; induction steps as [|st steps IH];
    intros p q p1 q1 e1 e2 Hpq Hp Hq; simpl in *.
  - inversion Hp; inversion Hq; subst. auto.
  - destruct st as [s|h].
    + destruct (interfere steps (set_state p s)) as [p' e1'] eqn:Hp'.
      destruct (interfere steps (set_state q s)) as [q' e2'] eqn:Hq'.
      inversion Hp; inversion Hq; subst.
      destruct (IH (set_state p s) (set_state q s) _ _ _ _ eq_refl Hp' Hq')
        as [H ->].
      rewrite Hpq. auto.
    + apply (IH (set_awaiter p h) (set_awaiter q h)); auto.
Qed.

(** ** The loop, one iteration at a time *)

Variable dcheck_enabled : bool.

Lemma spurious_failures_cons (t : tick) (sched : list tick) :
  spurious_failures (t :: sched) =
  (if spurious t then 1 else 0) + spurious_failures sched.
Proof. unfold spurious_failures. simpl. now destruct (spurious t). Qed.

Lemma cas_loop_eq (sched : list tick) (p : Promise T E) (state : PromiseState) :
  cas_loop dcheck_enabled sched p state =
  if state == DETACHED then
    {| ret := Returned false; final := p; trace := [Observe state] |}
  else if dcheck_enabled && (state == HAS_RESULT) then
    {| ret := DcheckFailed; final := p; trace := [Observe state] |}
  else
    match sched with
    | [] => {| ret := Running; final := p; trace := [Observe state] |}
    | t :: sched' =>
        let (p1, evs) := interfere (stores t) p in
        if (state_ p1 == state) && negb (spurious t) then
          after (Observe state :: evs ++ [CasOk state HAS_RESULT])
                (resume_awaiter state (set_state p1 HAS_RESULT))
        else
          after (Observe state :: evs ++ [CasFail state (state_ p1)])
                (cas_loop dcheck_enabled sched' p1 (state_ p1))
    end.
Proof. destruct sched; reflexivity. Qed.

End TraceFacts.

(** Splits a count over a trace into the counts over its pieces. *)
Ltac split_trace :=
  unfold after, resume_awaiter, cas_prior in *; cbn [trace ret final] in *;
  repeat first
    [ rewrite resumptions_app in * | rewrite result_writes_app in *
    | rewrite cas_attempts_app in * | rewrite transitions_app in *
    | rewrite observed_app in * | rewrite external_edges_only_app in *
    | rewrite replay_app in * | rewrite contended_failures_app in *
    | rewrite resumptions_cons in * | rewrite result_writes_cons in *
    | rewrite cas_attempts_cons in * | rewrite transitions_cons in *
    | rewrite observed_cons in * | rewrite external_edges_only_cons in *
    | rewrite replay_cons in * | rewrite contended_failures_cons in * ].

Section LoopRule.
Context {T E : Type}.
Variable dcheck_enabled : bool.
Variable P : list tick -> Promise T E -> PromiseState -> run T E outcome -> Prop.

Hypothesis at_detached : forall sched p,
  P sched p DETACHED
    {| ret := Returned false; final := p; trace := [Observe DETACHED] |}.

Hypothesis at_dcheck : forall sched p,
  dcheck_enabled = true ->
  P sched p HAS_RESULT
    {| ret := DcheckFailed; final := p; trace := [Observe HAS_RESULT] |}.

Hypothesis at_end : forall p state,
  state <> DETACHED -> dcheck_enabled && (state == HAS_RESULT) = false ->
  P [] p state {| ret := Running; final := p; trace := [Observe state] |}.

Hypothesis at_success : forall t sched p state p1 evs,
  state <> DETACHED -> dcheck_enabled && (state == HAS_RESULT) = false ->
  interfere (stores t) p = (p1, evs) ->
  state_ p1 = state -> spurious t = false ->
  P (t :: sched) p state
    (after (Observe state :: evs ++ [CasOk state HAS_RESULT])
           (resume_awaiter state (set_state p1 HAS_RESULT))).

Hypothesis at_failure : forall t sched p state p1 evs,
  state <> DETACHED -> dcheck_enabled && (state == HAS_RESULT) = false ->
  interfere (stores t) p = (p1, evs) ->
  state_ p1 <> state \/ spurious t = true ->
  P sched p1 (state_ p1) (cas_loop dcheck_enabled sched p1 (state_ p1)) ->
  P (t :: sched) p state
    (after (Observe state :: evs ++ [CasFail state (state_ p1)])
           (cas_loop dcheck_enabled sched p1 (state_ p1))).

(** Induction over the iterations of the loop. *)
Lemma cas_loop_rule (sched : list tick) (p : Promise T E) (state : PromiseState) :
  P sched p state (cas_loop dcheck_enabled sched p state).
Proof.
  revert p state; induction sched as [|t sched IH]; intros p state;
    rewrite cas_loop_eq.
  - destruct (state == DETACHED) eqn:Hd.
    { apply PromiseState_eqb_eq in Hd; subst. apply at_detached. }
    apply PromiseState_eqb_neq in Hd.
    destruct (dcheck_enabled && (state == HAS_RESULT)) eqn:Hc.
    { apply andb_true_iff in Hc as [Hc Hs].
      apply PromiseState_eqb_eq in Hs; subst. now apply at_dcheck. }
    now apply at_end.
  - destruct (state == DETACHED) eqn:Hd.
    { apply PromiseState_eqb_eq in Hd; subst. apply at_detached. }
    apply PromiseState_eqb_neq in Hd.
    destruct (dcheck_enabled && (state == HAS_RESULT)) eqn:Hc.
    { apply andb_true_iff in Hc as [Hc Hs].
      apply PromiseState_eqb_eq in Hs; subst. now apply at_dcheck. }
    destruct (interfere (stores t) p) as [p1 evs] eqn:Hi.
    destruct ((state_ p1 == state) && negb (spurious t)) eqn:Hcas.
    + apply andb_true_iff in Hcas as [Hs Hsp].
      apply PromiseState_eqb_eq in Hs. apply negb_true_iff in Hsp.
      now apply at_success.
    + apply at_failure; try assumption; [|apply IH].
      apply andb_false_iff in Hcas as [Hs|Hsp].
      * left. now apply PromiseState_eqb_neq.
      * right. now apply negb_false_iff.
Qed.

End LoopRule.

(** ** Runs of the finalization on the sample frames *)

Example await_suspend_with_awaiter :
  await_suspend true [quiet] (sample_frame HAS_AWAITER) =
  {| ret := Returned true;
     final := sample_frame HAS_RESULT;
     trace := [Load HAS_AWAITER; Observe HAS_AWAITER;
               CasOk HAS_AWAITER HAS_RESULT; Resume 7%N] |}.
Proof. reflexivity. Qed.

Example await_suspend_unobserved :
  await_suspend true [quiet] (sample_frame EMPTY) =
  {| ret := Returned true;
     final := sample_frame HAS_RESULT;
     trace := [Load EMPTY; Observe EMPTY; CasOk EMPTY HAS_RESULT] |}.
Proof. reflexivity. Qed.

Example await_suspend_detached :
  await_suspend true [quiet] (sample_frame DETACHED) =
  {| ret := Returned false;
     final := sample_frame DETACHED;
     trace := [Load DETACHED; Observe DETACHED] |}.
Proof. reflexivity. Qed.

Example await_suspend_detached_meanwhile :
  await_suspend true
    [{| stores := [StoreState DETACHED]; spurious := false |}; quiet]
    (sample_frame EMPTY) =
  {| ret := Returned false;
     final := sample_frame DETACHED;
     trace := [Load EMPTY; Observe EMPTY; Interfere EMPTY DETACHED;
               CasFail EMPTY DETACHED; Observe DETACHED] |}.
Proof. reflexivity. Qed.

Example await_suspend_racing :
  await_suspend true racing_schedule (sample_frame EMPTY) =
  {| ret := Returned true;
     final := set_awaiter (sample_frame HAS_RESULT) 9%N;
     trace := [Load EMPTY;
               Observe EMPTY; CasFail EMPTY EMPTY;
               Observe EMPTY; Interfere EMPTY HAS_AWAITER;
               CasFail EMPTY HAS_AWAITER;
               Observe HAS_AWAITER; CasFail HAS_AWAITER HAS_AWAITER;
               Observe HAS_AWAITER; CasOk HAS_AWAITER HAS_RESULT;
               Resume 9%N] |}.
Proof. reflexivity. Qed.

Example await_suspend_finalized_twice_debug :
  ret (await_suspend true [quiet] (sample_frame HAS_RESULT)) = DcheckFailed.
Proof. reflexivity. Qed.

Example await_suspend_finalized_twice_release :
  trace (await_suspend false [quiet] (sample_frame HAS_RESULT)) =
  [Load HAS_RESULT; Observe HAS_RESULT; CasOk HAS_RESULT HAS_RESULT].
Proof. reflexivity. Qed.

Example await_transform_same_executor :
  await_transform_Future (sample_frame EMPTY) (peer_future 3%N) =
  {| awaitable_ := peer_future 3%N; hop_to := None |}.
Proof. reflexivity. Qed.

Example await_transform_other_executor :
  await_transform_Future (sample_frame EMPTY) (peer_future 4%N) =
  {| awaitable_ := peer_future 4%N; hop_to := Some 3%N |}.
Proof. reflexivity. Qed.

(** ** Finalization *)

Section Finalization.
Context {T E : Type}.
Variable dcheck_enabled : bool.
Implicit Types p : Promise T E.

Lemma no_resume_in tr (h : coroutine_handle) :
  @resumptions T E tr = 0 -> ~ In (Resume h) tr.
Proof.
  unfold resumptions. induction tr as [|e tr IH]; simpl; [tauto|].
  intros H [He|Hin].
  - subst e. simpl in H. discriminate.
  - destruct (is_resume e); simpl in H; [discriminate|]. now apply IH.
Qed.

(** What the loop resumes is settled by the state its successful
    compare-exchange replaced. *)
Lemma cas_loop_resumes sched p state :
  let r := cas_loop dcheck_enabled sched p state in
  resumptions (trace r) =
    match cas_prior (trace r) with Some HAS_AWAITER => 1 | _ => 0 end /\
  (ret r = Returned false -> cas_prior (trace r) = None) /\
  (forall h, In (Resume h) (trace r) -> h = awaiter_ (final r)).
Proof.
  apply cas_loop_rule; clear sched p state.
  - intros sched p. simpl. repeat split; auto.
    intros h [H|[]]; discriminate.
  - intros sched p _. simpl. repeat split; auto.
    intros h [H|[]]; discriminate.
  - intros p state _ _. simpl. repeat split; auto.
    intros h [H|[]]; discriminate.
  - intros t sched p state p1 evs _ _ Hi _ _.
    apply interfere_frame in Hi as (_ & _ & Hr & _ & _ & Ht & _).
    split_trace. rewrite Hr, Ht. simpl.
    repeat split.
    + destruct state; reflexivity.
    + discriminate.
    + intros h [H|H]; [discriminate|].
      rewrite <- app_assoc in H. apply in_app_or in H as [H|H].
      { now apply no_resume_in in H. }
      destruct H as [H|H]; [discriminate|].
      destruct (state == HAS_AWAITER); simpl in H; [|tauto].
      destruct H as [H|[]]. now inversion H.
  - intros t sched p state p1 evs _ _ Hi _ (IH1 & IH2 & IH3).
    apply interfere_frame in Hi as (_ & _ & Hr & _ & _ & Ht & _).
    split_trace. rewrite Hr, Ht. simpl.
    repeat split; auto.
    intros h [H|H]; [discriminate|].
    rewrite <- app_assoc in H. apply in_app_or in H as [H|H].
    { now apply no_resume_in in H. }
    destruct H as [H|H]; [discriminate|]. now apply IH3.
Qed.

(** The stores of the loop to [state_], what it leaves untouched, and when
    it gives up on [DETACHED]. *)
Lemma cas_loop_states sched p state :
  let r := cas_loop dcheck_enabled sched p state in
  (forall old new, In (old, new) (transitions (trace r)) ->
     new = HAS_RESULT /\ old <> DETACHED /\
     (dcheck_enabled = true -> old <> HAS_RESULT)) /\
  length (transitions (trace r)) <= 1 /\
  (ret r = Returned false <-> In DETACHED (observed (trace r))) /\
  (ret r = Returned false -> transitions (trace r) = []) /\
  (state = state_ p -> ret r = Returned false -> state_ (final r) = DETACHED) /\
  replay (state_ p) (trace r) = state_ (final r) /\
  result_ (final r) = result_ p /\ executor_ (final r) = executor_ p /\
  result_writes (trace r) = 0.
Proof.
  apply cas_loop_rule; clear sched p state.
  - intros sched p. simpl. intuition (try discriminate; try congruence; try lia).
  - intros sched p _. simpl. intuition (try discriminate; try congruence; try lia).
  - intros p state Hd _. simpl. intuition (try discriminate; try congruence; try lia).
  - intros t sched p state p1 evs Hd Hc Hi Hs _.
    apply interfere_frame in Hi as (Hres & Hex & _ & _ & Hw & Ht & Ho).
    split_trace. rewrite Ht, Ho, Hw.
    destruct (state == HAS_AWAITER); simpl;
      (repeat split; auto; try discriminate; try tauto).
    all: try (intros [H|[]]; congruence).
    all: destruct H as [H|[]]; inversion H; subst old new; auto.
    all: intros Hdc Hst; rewrite Hdc, Hst in Hc; discriminate.
  - intros t sched p state p1 evs Hd Hc Hi _
      (IH1 & IH2 & IH3 & IH4 & IH5 & IH6 & IH7 & IH8 & IH9).
    pose proof (interfere_replay _ _ Hi) as Hrep.
    apply interfere_frame in Hi as (Hres & Hex & _ & _ & Hw & Ht & Ho).
    split_trace. rewrite Ht, Ho, Hw, Hrep. simpl.
    repeat split; auto; try congruence.
    + now apply (IH1 old new).
    + now apply (IH1 old new).
    + now apply (IH1 old new).
    + intros H. right. now apply IH3.
    + intros [H|H]; [congruence|]. now apply IH3.
Qed.

(** C2: every store of [FinalSuspender::await_suspend] to [state_] writes
    [HAS_RESULT], none replaces [DETACHED], and every one that changes the
    state replaces [EMPTY] or [HAS_AWAITER] and is an edge of the lifecycle
    state machine (with [DCHECK] compiled in, every store is); a call makes
    at most one store; a loop that sees [DETACHED] exits returning [false],
    and a call that returns [false] made no store and leaves [DETACHED];
    and the stores recorded, with those of the other threads, account for
    the value [state_] is left with. *)
Theorem C2_finalization_edges_legal sched p :
  let r := await_suspend dcheck_enabled sched p in
  (forall old new, In (old, new) (transitions (trace r)) ->
     new = HAS_RESULT /\ old <> DETACHED /\
     (old <> new ->
        (old = EMPTY \/ old = HAS_AWAITER) /\ legal_edge old new = true) /\
     (dcheck_enabled = true -> old = EMPTY \/ old = HAS_AWAITER)) /\
  length (transitions (trace r)) <= 1 /\
  (In DETACHED (observed (trace r)) -> ret r = Returned false) /\
  (ret r = Returned false ->
     transitions (trace r) = [] /\ state_ (final r) = DETACHED) /\
  replay (state_ p) (trace r) = state_ (final r).
Proof.
  destruct (cas_loop_states sched p (state_ p))
    as (H1 & H2 & H3 & H4 & H5 & H6 & _).
  unfold await_suspend. split_trace. simpl.
  repeat split; auto; try (now apply H3).
  - now apply (H1 old new).
  - now apply (H1 old new).
  - destruct (H1 old new H) as (-> & Hd & _).
    destruct old; try tauto; congruence.
  - destruct (H1 old new H) as (-> & Hd & _).
    destruct old; try reflexivity; congruence.
  - intros Hdc. destruct (H1 old new H) as (_ & Hd & Hr).
    specialize (Hr Hdc). destruct old; tauto.
Qed.

(** C3: [FinalSuspender::await_ready] returns [true] exactly when
    [state_] is [DETACHED], and resumes nothing.
    [FinalSuspender::await_suspend] returns [false] when it is entered on
    [DETACHED], and on any schedule exactly when its loop comes to see
    [DETACHED]; a call that returns [false] has resumed no continuation and
    stored nothing to [state_], which is left [DETACHED], so the frame is
    not kept suspended and runs to its end. *)
Theorem C3_detached_not_suspended p :
  (ret (await_ready p) = true <-> state_ p = DETACHED) /\
  resumptions (trace (await_ready p)) = 0 /\
  final (await_ready p) = p /\
  forall sched,
    let r := await_suspend dcheck_enabled sched p in
    (state_ p = DETACHED -> ret r = Returned false) /\
    (ret r = Returned false <-> In DETACHED (observed (trace r))) /\
    (ret r = Returned false ->
       resumptions (trace r) = 0 /\ transitions (trace r) = [] /\
       state_ (final r) = DETACHED).
Proof.
  split; [apply PromiseState_eqb_eq|].
  split; [reflexivity|]. split; [reflexivity|].
  intros sched.
  destruct (cas_loop_states sched p (state_ p))
    as (_ & _ & H3 & H4 & H5 & _).
  destruct (cas_loop_resumes sched p (state_ p)) as (R1 & R2 & _).
  unfold await_suspend. split_trace. simpl.
  split; [|split].
  - intros Hd. rewrite cas_loop_eq, Hd. reflexivity.
  - exact H3.
  - intros Hr. split; [|split].
    + rewrite R1, (H4 Hr). reflexivity.
    + now apply H4.
    + now apply H5.
Qed.

(** As long as the other threads keep to their edges and [HAS_RESULT] was
    not stored before, the loop never holds [HAS_RESULT] in [state]. *)
Lemma cas_loop_never_sees_result sched p state :
  let r := cas_loop dcheck_enabled sched p state in
  state = state_ p -> state <> HAS_RESULT ->
  external_edges_only (trace r) = true ->
  ~ In HAS_RESULT (observed (trace r)) /\ ret r <> DcheckFailed.
Proof.
  apply cas_loop_rule; clear sched p state.
  - intros sched p. cbv zeta. intros _ _ _. simpl.
    split; [intros [H|[]]|]; discriminate.
  - intros sched p _. cbv zeta. intros _ H. congruence.
  - intros p state _ _. cbv zeta. intros _ Hs _. simpl.
    split; [intros [H|[]]|]; congruence.
  - intros t sched p state p1 evs _ _ Hi _ _. cbv zeta. intros _ Hs _.
    apply interfere_frame in Hi as (_ & _ & _ & _ & _ & _ & Ho).
    split_trace. rewrite Ho.
    split; [|discriminate].
    destruct (state == HAS_AWAITER); simpl; intros [H|[]]; congruence.
  - intros t sched p state p1 evs _ _ Hi _ IH. cbv zeta in *. intros Hst Hs Hext.
    pose proof (interfere_external _ _ Hi) as Hedge.
    apply interfere_frame in Hi as (_ & _ & _ & _ & _ & _ & Ho).
    split_trace. rewrite Ho. simpl in *.
    apply andb_true_iff in Hext as [He Hext].
    rewrite andb_true_r in He. specialize (Hedge He).
    assert (Hp1 : state_ p1 <> HAS_RESULT).
    { destruct Hedge as [->|[_ [->| ->]]]; congruence. }
    destruct (IH eq_refl Hp1 Hext) as [IH1 IH2].
    split; [|exact IH2].
    intros [H|H]; [congruence|]. now apply IH1.
Qed.

(** C10: when [HAS_RESULT] was not stored before the call (finalization
    runs once, and it alone stores [HAS_RESULT]) and every store of the
    other threads is one of their edges, [EMPTY] to [DETACHED] or [EMPTY]
    to [HAS_AWAITER], the loop of [FinalSuspender::await_suspend] never
    holds [HAS_RESULT] in [state], on no schedule and at no iteration, and
    the call never ends in a failed [DCHECK]. *)
Theorem C10_dcheck_never_fires sched p :
  state_ p <> HAS_RESULT ->
  external_edges_only (trace (await_suspend dcheck_enabled sched p)) = true ->
  ~ In HAS_RESULT (observed (trace (await_suspend dcheck_enabled sched p))) /\
  ret (await_suspend dcheck_enabled sched p) <> DcheckFailed.
Proof.
  intros Hs Hext. unfold await_suspend in *. split_trace. simpl in *.
  now apply cas_loop_never_sees_result.
Qed.

(** Other threads make the compare-exchange fail at most once, and only
    when the loop holds [EMPTY]; every other failure is spurious. *)
Lemma cas_loop_attempts sched p state :
  let r := cas_loop dcheck_enabled sched p state in
  let k := if state == EMPTY then 1 else 0 in
  state = state_ p ->
  external_edges_only (trace r) = true ->
  contended_failures (trace r) <= k /\
  cas_attempts (trace r) <= spurious_failures sched + k + 1 /\
  (spurious_failures sched + k + 1 <= length sched -> ret r <> Running).
Proof.
  apply cas_loop_rule; clear sched p state.
  - intros sched p. cbv zeta. intros _ _.
    unfold contended_failures, cas_attempts. simpl.
    repeat split; try lia; try congruence.
  - intros sched p _. cbv zeta. intros _ _.
    unfold contended_failures, cas_attempts. simpl.
    repeat split; try lia; try congruence.
  - intros p state _ _. cbv zeta. intros _ _.
    unfold contended_failures, cas_attempts. simpl. repeat split; try lia.
  - intros t sched p state p1 evs _ _ Hi _ Hsp. cbv zeta. intros _ _.
    pose proof (interfere_no_cas _ _ Hi) as Hn.
    apply interfere_frame in Hi as (_ & _ & _ & Hc & _).
    split_trace. rewrite Hn, Hc, spurious_failures_cons, Hsp.
    unfold contended_failures, cas_attempts.
    destruct (state == HAS_AWAITER), (state == EMPTY); simpl;
      repeat split; try lia; try congruence.
  - intros t sched p state p1 evs _ _ Hi Hfail IH. cbv zeta in *.
    intros Hst Hext.
    pose proof (interfere_external _ _ Hi) as Hedge.
    pose proof (interfere_no_cas _ _ Hi) as Hn.
    apply interfere_frame in Hi as (_ & _ & _ & Hc & _).
    split_trace. rewrite Hn, Hc, spurious_failures_cons. simpl in *.
    apply andb_true_iff in Hext as [He Hext].
    rewrite andb_true_r in He. specialize (Hedge He).
    destruct (IH eq_refl Hext) as (IH1 & IH2 & IH3). clear IH.
    rewrite <- Hst in Hedge.
    change (@contended_failures T E []) with 0.
    destruct Hedge as [Hsame|[Hempty Hnew]].
    + (* state_ is as expected: the failure is spurious *)
      destruct Hfail as [Hne|Hsp]; [congruence|].
      rewrite Hsp, Hsame in *. rewrite PromiseState_eqb_refl. simpl.
      repeat split; try lia. intros Hlen. apply IH3. lia.
    + (* another thread moved state_ out of EMPTY *)
      clear Hst. subst state.
      destruct Hnew as [Hnew|Hnew]; rewrite Hnew in *; simpl in *;
        destruct (spurious t); repeat split; try lia;
        intros Hlen; apply IH3; lia.
Qed.

(** C9 (amended): when every store of the other threads is one of their
    edges, [EMPTY] to [DETACHED] or [EMPTY] to [HAS_AWAITER], the loop of
    [FinalSuspender::await_suspend] fails its compare-exchange at most once
    on a changed [state_]; every other failure is a spurious failure of
    [compare_exchange_weak].  On a schedule with [k] spurious failures the
    loop makes at most [k + 2] attempts, and once the schedule offers that
    many the call has left the loop; it has returned when [HAS_RESULT] was
    not stored before the call. *)
Theorem C9_cas_loop_bounded_up_to_spurious_failures sched p :
  external_edges_only (trace (await_suspend dcheck_enabled sched p)) = true ->
  let r := await_suspend dcheck_enabled sched p in
  contended_failures (trace r) <= 1 /\
  cas_attempts (trace r) <= spurious_failures sched + 2 /\
  (spurious_failures sched + 2 <= length sched -> ret r <> Running) /\
  (spurious_failures sched + 2 <= length sched -> state_ p <> HAS_RESULT ->
   exists b, ret r = Returned b).
Proof.
  intros Hext.
  assert (Hloop : external_edges_only
            (trace (cas_loop dcheck_enabled sched p (state_ p))) = true).
  { unfold await_suspend in Hext. split_trace. simpl in Hext. exact Hext. }
  destruct (@cas_loop_attempts sched p (state_ p) eq_refl Hloop)
    as (H1 & H2 & H3).
  assert (Hrun : spurious_failures sched + 2 <= length sched ->
                 ret (cas_loop dcheck_enabled sched p (state_ p)) <> Running).
  { intros Hlen. apply H3. destruct (state_ p == EMPTY); lia. }
  unfold await_suspend. split_trace. simpl.
  split; [destruct (state_ p == EMPTY); lia|].
  split; [destruct (state_ p == EMPTY); lia|].
  split; [exact Hrun|].
  intros Hlen Hs. specialize (Hrun Hlen).
  destruct (@cas_loop_never_sees_result sched p (state_ p) eq_refl Hs Hloop)
    as [_ Hd].
  destruct (ret (cas_loop dcheck_enabled sched p (state_ p))) as [b| |];
    [now exists b|congruence|congruence].
Qed.

(** A run of spurious failures never leaves the loop and counts one attempt
    for each. *)
Lemma hiccups_spin n p :
  state_ p = EMPTY ->
  ret (cas_loop dcheck_enabled (repeat hiccup n) p EMPTY) = Running /\
  cas_attempts (trace (cas_loop dcheck_enabled (repeat hiccup n) p EMPTY)) = n /\
  external_edges_only
    (trace (cas_loop dcheck_enabled (repeat hiccup n) p EMPTY)) = true.
Proof.
  intros Hp. induction n as [|n (IH1 & IH2 & IH3)]; rewrite cas_loop_eq; simpl.
  - rewrite andb_false_r. simpl. auto.
  - rewrite andb_false_r, Hp. simpl. unfold after. simpl.
    rewrite !cas_attempts_cons, IH2. simpl. auto.
Qed.

(** Two frames in the same lifecycle state go through the loop alike,
    whatever their result cells hold. *)
Lemma cas_loop_same_state sched : forall (p q : Promise T E) state,
  state_ p = state_ q ->
  ret (cas_loop dcheck_enabled sched p state) =
    ret (cas_loop dcheck_enabled sched q state) /\
  state_ (final (cas_loop dcheck_enabled sched p state)) =
    state_ (final (cas_loop dcheck_enabled sched q state)) /\
  transitions (trace (cas_loop dcheck_enabled sched p state)) =
    transitions (trace (cas_loop dcheck_enabled sched q state)) /\
  observed (trace (cas_loop dcheck_enabled sched p state)) =
    observed (trace (cas_loop dcheck_enabled sched q state)) /\
  cas_attempts (trace (cas_loop dcheck_enabled sched p state)) =
    cas_attempts (trace (cas_loop dcheck_enabled sched q state)) /\
  resumptions (trace (cas_loop dcheck_enabled sched p state)) =
    resumptions (trace (cas_loop dcheck_enabled sched q state)).
Proof.
  induction sched as [|t sched IH]; intros p q state Hpq; rewrite !cas_loop_eq.
  - destruct (state == DETACHED); [simpl; repeat split; auto|].
    destruct (dcheck_enabled && (state == HAS_RESULT)); simpl; repeat split; auto.
  - destruct (state == DETACHED); [simpl; repeat split; auto|].
    destruct (dcheck_enabled && (state == HAS_RESULT)); [simpl; repeat split; auto|].
    destruct (interfere (stores t) p) as [p1 e1] eqn:Hp.
    destruct (interfere (stores t) q) as [q1 e2] eqn:Hq.
    destruct (interfere_same_state _ _ _ Hpq Hp Hq) as [H1 ->].
    rewrite <- H1.
    destruct ((state_ p1 == state) && negb (spurious t)).
    + split_trace.
      destruct (state == HAS_AWAITER); simpl; repeat split; auto.
    + destruct (IH p1 q1 (state_ p1) H1) as (I1 & I2 & I3 & I4 & I5 & I6).
      split_trace. rewrite I3, I4, I5, I6. repeat split; auto.
Qed.

End Finalization.

(** C9 as claimed fails: no number bounds the attempts of the loop over
    the executions in which the other threads keep to their edges.  With no
    store of another thread at all, [n] spurious failures of
    [compare_exchange_weak] make the loop run [n] times. *)
Lemma C9_unbounded_under_spurious_failures :
  ~ (exists bound : nat,
       forall (sched : list tick) (p : Promise unit unit),
         external_edges_only (trace (await_suspend false sched p)) = true ->
         cas_attempts (trace (await_suspend false sched p)) <= bound).
Proof.
  intros [bound H].
  set (p := Promise_ctor (@TryNothing unit unit)).
  destruct (@hiccups_spin unit unit false (S bound) p eq_refl) as (_ & Hn & He).
  specialize (H (repeat hiccup (S bound)) p).
  unfold await_suspend in H. split_trace.
  change (state_ p) with EMPTY in H. rewrite He, Hn in H.
  specialize (H eq_refl). simpl in H. lia.
Qed.

(** The bound of C9 on the racing schedule: two spurious failures and one
    failure on the awaiter's store, four attempts in all. *)
Lemma C9_witness :
  external_edges_only
    (trace (await_suspend true racing_schedule (sample_frame EMPTY))) = true /\
  (contended_failures
     (trace (await_suspend true racing_schedule (sample_frame EMPTY))) <= 1 /\
   cas_attempts
     (trace (await_suspend true racing_schedule (sample_frame EMPTY)))
     <= spurious_failures racing_schedule + 2 /\
   (spurious_failures racing_schedule + 2 <= length racing_schedule ->
    ret (await_suspend true racing_schedule (sample_frame EMPTY)) <> Running) /\
   (spurious_failures racing_schedule + 2 <= length racing_schedule ->
    state_ (sample_frame EMPTY) <> HAS_RESULT ->
    exists b,
      ret (await_suspend true racing_schedule (sample_frame EMPTY)) = Returned b)).
Proof.
  split; [reflexivity|].
  apply (@C9_cas_loop_bounded_up_to_spurious_failures
           nat nat true racing_schedule (sample_frame EMPTY)).
  reflexivity.
Defined.

(** C10 on the racing schedule, entered on [EMPTY] with [DCHECK] compiled
    in. *)
Lemma C10_witness :
  (state_ (sample_frame EMPTY) <> HAS_RESULT /\
   external_edges_only
     (trace (await_suspend true racing_schedule (sample_frame EMPTY))) = true) /\
  (~ In HAS_RESULT
       (observed (trace (await_suspend true racing_schedule (sample_frame EMPTY)))) /\
   ret (await_suspend true racing_schedule (sample_frame EMPTY)) <> DcheckFailed).
Proof.
  split; [split; [discriminate|reflexivity]|].
  apply (@C10_dcheck_never_fires nat nat true racing_schedule (sample_frame EMPTY));
    [discriminate|reflexivity].
Defined.

(** ** The completion hooks *)

Section HookFacts.
Context {T E X : Type}.
Variable from_exception_ptr : X -> E.

(** C4: [return_value] and [unhandled_exception] assign [result_] and
    nothing else: the lifecycle state, the stored continuation and the
    bound executor are as before, and the assignment is the only access
    either makes. *)
Theorem C4_hooks_write_result_only {U : Type} (to_T : U -> T) (value : U)
  (current_exception : X) (p : Promise T E) :
  let rv := return_value to_T value p in
  let re := unhandled_exception from_exception_ptr current_exception p in
  (state_ (final rv) = state_ p /\ awaiter_ (final rv) = awaiter_ p /\
   executor_ (final rv) = executor_ p) /\
  (state_ (final re) = state_ p /\ awaiter_ (final re) = awaiter_ p /\
   executor_ (final re) = executor_ p) /\
  trace rv = [WriteResult (TryValue (to_T value))] /\
  trace re = [WriteResult (TryException (from_exception_ptr current_exception))].
Proof. simpl. repeat split. Qed.

(** C5: [unhandled_exception] stores the captured error into the [result_]
    that [return_value] stores the value into, and finalization does not
    look at it: of two frames in the same lifecycle state, one completed
    with a value and one with an error, [await_ready] returns the same, and
    on every schedule [await_suspend] returns the same, sees the same
    states, makes the same attempts and the same store to [state_], resumes
    equally often and leaves the same state; each result cell is left as
    the hook wrote it. *)
Theorem C5_error_transparency {U : Type} (to_T : U -> T)
  (dcheck_enabled : bool) (sched : list tick)
  (value : U) (current_exception : X) (p q : Promise T E) :
  state_ p = state_ q ->
  let pv := final (return_value to_T value p) in
  let qe := final (unhandled_exception from_exception_ptr current_exception q) in
  let rv := await_suspend dcheck_enabled sched pv in
  let re := await_suspend dcheck_enabled sched qe in
  result_ pv = TryValue (to_T value) /\
  result_ qe = TryException (from_exception_ptr current_exception) /\
  ret (await_ready pv) = ret (await_ready qe) /\
  ret rv = ret re /\
  observed (trace rv) = observed (trace re) /\
  cas_attempts (trace rv) = cas_attempts (trace re) /\
  transitions (trace rv) = transitions (trace re) /\
  resumptions (trace rv) = resumptions (trace re) /\
  state_ (final rv) = state_ (final re) /\
  result_ (final rv) = TryValue (to_T value) /\
  result_ (final re) = TryException (from_exception_ptr current_exception).
Proof.
  intros Hpq pv qe rv re.
  assert (Hs : state_ pv = state_ qe) by exact Hpq.
  destruct (cas_loop_same_state dcheck_enabled sched pv qe (state_ pv) Hs)
    as (S1 & S2 & S3 & S4 & S5 & S6).
  destruct (cas_loop_states dcheck_enabled sched pv (state_ pv))
    as (_ & _ & _ & _ & _ & _ & Rv & _).
  destruct (cas_loop_states dcheck_enabled sched qe (state_ qe))
    as (_ & _ & _ & _ & _ & _ & Re & _).
  subst rv re. unfold await_suspend. split_trace.
  rewrite <- Hs, S3, S4, S5, S6.
  split; [reflexivity|]. split; [reflexivity|].
  split; [simpl; now rewrite Hpq|].
  split; [exact S1|].
  rewrite Hs in *. repeat split; auto.
Qed.

(** C8 (amended): [result_] is assigned by the hooks that end the body
    and by nothing else here, and at most once: [return_value] and
    [unhandled_exception] assign it exactly once each, [return_void]
    assigns nothing and leaves [result_] as the constructor made it, and
    [await_ready] and [await_suspend] neither assign it nor change it. *)
Theorem C8_result_written_by_completion_only (dcheck_enabled : bool)
  (sched : list tick) (c : completion X T) (p : Promise T E) :
  result_writes (trace (body_completion from_exception_ptr c p)) =
    match c with co_return_void => 0 | _ => 1 end /\
  result_writes (trace (body_completion from_exception_ptr c p)) <= 1 /\
  (forall (U : Type) (to_T : U -> T) (v : U),
     result_writes (trace (return_value to_T v p)) = 1 /\
     result_ (final (return_value to_T v p)) = TryValue (to_T v)) /\
  (forall e, result_writes (trace (unhandled_exception from_exception_ptr e p)) = 1 /\
             result_ (final (unhandled_exception from_exception_ptr e p)) =
               TryException (from_exception_ptr e)) /\
  (forall pv : Promise unit E,
     result_writes (trace (return_void pv)) = 0 /\ final (return_void pv) = pv) /\
  result_writes (trace (await_ready p)) = 0 /\
  result_ (final (await_ready p)) = result_ p /\
  result_writes (trace (await_suspend dcheck_enabled sched p)) = 0 /\
  result_ (final (await_suspend dcheck_enabled sched p)) = result_ p.
Proof.
  destruct (cas_loop_states dcheck_enabled sched p (state_ p))
    as (_ & _ & _ & _ & _ & _ & Hr & _ & Hw).
  split; [destruct c; reflexivity|].
  split; [destruct c; unfold result_writes; simpl; lia|].
  split; [intros U to_T v; split; reflexivity|].
  split; [intros e; split; reflexivity|].
  split; [intros pv; split; reflexivity|].
  split; [reflexivity|]. split; [reflexivity|].
  unfold await_suspend. split_trace. rewrite Hw. split; [reflexivity|exact Hr].
Qed.

End HookFacts.

(** C8 as claimed fails for [T = void]: a [void] coroutine whose body ends
    without an exception goes through [return_void], which assigns
    nothing, so [result_] has not been written once but not at all. *)
Lemma C8_return_void_writes_nothing :
  result_writes
    (trace (body_completion (fun e : nat => e) co_return_void void_frame)) <> 1.
Proof. discriminate. Qed.

(** C5 on two frames waited on by different coroutines, one completed with
    the value 5 and one with the error 2. *)
Lemma C5_witness :
  state_ (sample_frame HAS_AWAITER) =
    state_ (set_awaiter (sample_frame HAS_AWAITER) 11%N) /\
  ret (await_suspend true racing_schedule
         (final (return_value (fun n : nat => n) 5 (sample_frame HAS_AWAITER)))) =
  ret (await_suspend true racing_schedule
         (final (unhandled_exception (fun e : nat => e) 2
                   (set_awaiter (sample_frame HAS_AWAITER) 11%N)))).
Proof.
  split; [reflexivity|].
  apply (@C5_error_transparency nat nat nat (fun e : nat => e) nat
           (fun n : nat => n) true
           racing_schedule 5 2 (sample_frame HAS_AWAITER)
           (set_awaiter (sample_frame HAS_AWAITER) 11%N)).
  reflexivity.
Defined.

(** ** await_transform *)

(** C6: for a peer [Future<U>], both overloads of [await_transform] compare
    the executor of the future's promise with the executor of the awaiting
    frame.  When the two are the same the wrapper is created from the
    future alone and makes no hop; when they differ it is created from the
    future and the frame's executor and makes exactly one hop, to that
    executor. *)
Theorem C6_peer_future_dispatch {T U E : Type} (p : Promise T E)
  (future : Future U E) :
  (executor_ (promise_ future) = executor_ p ->
     await_transform_Future p future = AwaitWrapper_create future /\
     await_transform_Future_rvalue p future = AwaitWrapper_create future /\
     executor_hops (await_transform_Future p future) = 0 /\
     executor_hops (await_transform_Future_rvalue p future) = 0) /\
  (executor_ (promise_ future) <> executor_ p ->
     await_transform_Future p future =
       AwaitWrapper_create_via future (executor_ p) /\
     await_transform_Future_rvalue p future =
       AwaitWrapper_create_via future (executor_ p) /\
     executor_hops (await_transform_Future p future) = 1 /\
     executor_hops (await_transform_Future_rvalue p future) = 1 /\
     hop_to (await_transform_Future p future) = Some (executor_ p) /\
     hop_to (await_transform_Future_rvalue p future) = Some (executor_ p)).
Proof.
  unfold await_transform_Future, await_transform_Future_rvalue.
  destruct (N.eqb_spec (executor_ (promise_ future)) (executor_ p)) as [Heq|Hne].
  - split; [intros _; repeat split|intros H; contradiction].
  - split; [intros H; contradiction|intros _; repeat split].
Qed.

(** C7: [await_transform(getCurrentExecutor)] returns an
    [AwaitableReady<Executor*>], which is ready at once, so awaiting it
    never suspends, and which yields the [executor_] of the frame. *)
Theorem C7_current_executor_ready {T E : Type} (p : Promise T E)
  (query : getCurrentExecutor) :
  AwaitableReady_await_ready (await_transform_getCurrentExecutor p query) = true /\
  AwaitableReady_await_resume (await_transform_getCurrentExecutor p query)
    = executor_ p /\
  await_transform_getCurrentExecutor p query = {| value_ := executor_ p |}.
Proof. repeat split. Qed.

(** * More of the finalization *)

Section Progress.
Context {T E : Type}.
Variable dcheck_enabled : bool.
Implicit Types p q : Promise T E.
Implicit Types tr a b : list (event T E).

Lemma interferences_app a b : interferences (a ++ b) = interferences a + interferences b.
Proof. unfold interferences. now rewrite filter_app, length_app. Qed.

Lemma interferences_cons (e : event T E) tr :
  interferences (e :: tr) = (if is_interfere e then 1 else 0) + interferences tr.
Proof. unfold interferences. simpl. now destruct (is_interfere e). Qed.

(** A store of another thread that is seen has been counted. *)
Lemma interfere_moved (steps : list env_step) p q evs :
  interfere steps p = (q, evs) -> state_ q <> state_ p -> 1 <= interferences evs.
Proof.
  revert p q evs; induction steps as [|st steps IH]; intros p q evs H Hne;
    simpl in H.
  - inversion H; subst. congruence.
  - destruct st as [s|h].
    + destruct (interfere steps (set_state p s)) as [q' evs'] eqn:Hi.
      inversion H; subst. rewrite interferences_cons. simpl. lia.
    + apply (IH (set_awaiter p h) q evs); assumption.
Qed.

(** The store the loop makes, read off the value it returns. *)
Lemma cas_loop_returns sched p state :
  let r := cas_loop dcheck_enabled sched p state in
  (ret r = Returned true ->
     state_ (final r) = HAS_RESULT /\
     exists prior, transitions (trace r) = [(prior, HAS_RESULT)] /\
                   prior <> DETACHED /\ In prior (observed (trace r))) /\
  (ret r <> Returned true -> transitions (trace r) = []).
Proof.
  apply cas_loop_rule; clear sched p state.
  - intros sched p. simpl. split; [discriminate|reflexivity].
  - intros sched p _. simpl. split; [discriminate|reflexivity].
  - intros p state _ _. simpl. split; [discriminate|reflexivity].
  - intros t sched p state p1 evs Hd _ Hi _ _.
    apply interfere_frame in Hi as (_ & _ & _ & _ & _ & Ht & Ho).
    split_trace. rewrite Ht, Ho.
    split; [intros _|intros H; congruence].
    split; [reflexivity|]. exists state.
    destruct (state == HAS_AWAITER); simpl; auto.
  - intros t sched p state p1 evs _ _ Hi _ [IH1 IH2].
    apply interfere_frame in Hi as (_ & _ & _ & _ & _ & Ht & Ho).
    split_trace. rewrite Ht, Ho. simpl.
    split; [|exact IH2].
    intros Hr. destruct (IH1 Hr) as (Hs & prior & Hp & Hpd & Hin).
    split; [exact Hs|]. exists prior. auto.
Qed.

(** X1: the value [await_suspend] returns tells what it did to [state_].
    Returning [true] it has made exactly one store, of [HAS_RESULT] over a
    state its loop had seen and that was not [DETACHED], and leaves
    [HAS_RESULT]; returning [false] it has stored nothing and leaves
    [DETACHED]; a call that has not returned has stored nothing. *)
Theorem X1_return_value_tells_the_store sched p :
  let r := await_suspend dcheck_enabled sched p in
  (ret r = Returned true ->
     state_ (final r) = HAS_RESULT /\
     exists prior, transitions (trace r) = [(prior, HAS_RESULT)] /\
                   prior <> DETACHED /\ In prior (observed (trace r))) /\
  (ret r = Returned false ->
     state_ (final r) = DETACHED /\ transitions (trace r) = []) /\
  (ret r = Running \/ ret r = DcheckFailed -> transitions (trace r) = []).
Proof.
  destruct (cas_loop_returns sched p (state_ p)) as [H1 H2].
  destruct (cas_loop_states dcheck_enabled sched p (state_ p))
    as (_ & _ & _ & H4 & H5 & _).
  unfold await_suspend. split_trace. simpl.
  split; [exact H1|]. split.
  - intros Hr. split; [now apply H5|now apply H4].
  - intros [Hr|Hr]; apply H2; rewrite Hr; discriminate.
Qed.

(** Every attempt but the last is paid for by a spurious failure or by a
    store of another thread. *)
Lemma cas_loop_lock_free sched p state :
  let r := cas_loop dcheck_enabled sched p state in
  state = state_ p ->
  cas_attempts (trace r) <= spurious_failures sched + interferences (trace r) + 1.
Proof.
  apply cas_loop_rule; clear sched p state.
  - intros sched p. cbv zeta. intros _. unfold cas_attempts. simpl. lia.
  - intros sched p _. cbv zeta. intros _. unfold cas_attempts. simpl. lia.
  - intros p state _ _. cbv zeta. intros _. unfold cas_attempts. simpl. lia.
  - intros t sched p state p1 evs _ _ Hi _ _. cbv zeta. intros _.
    apply interfere_frame in Hi as (_ & _ & _ & Hc & _).
    split_trace. rewrite Hc.
    unfold cas_attempts.
    destruct (state == HAS_AWAITER); simpl; lia.
  - intros t sched p state p1 evs _ _ Hi Hfail IH. cbv zeta in *. intros Hst.
    specialize (IH eq_refl).
    pose proof (@interfere_moved _ _ _ _ Hi) as Hmoved.
    apply interfere_frame in Hi as (_ & _ & _ & Hc & _).
    split_trace. rewrite Hc, spurious_failures_cons.
    repeat (rewrite interferences_app || rewrite interferences_cons).
    change (@interferences T E []) with 0.
    change (@cas_attempts T E []) with 0. simpl.
    destruct Hfail as [Hne|Hsp].
    + assert (1 <= interferences evs) by (apply Hmoved; congruence). lia.
    + rewrite Hsp. lia.
Qed.

(** X2: whatever the other threads do, the loop of [await_suspend] makes
    no more attempts than one plus the spurious failures of
    [compare_exchange_weak] plus the stores of other threads to [state_]
    it has seen: it retries only when another thread has made a step or
    the exchange failed spuriously. *)
Theorem X2_retries_paid_for sched p :
  cas_attempts (trace (await_suspend dcheck_enabled sched p)) <=
  spurious_failures sched
  + interferences (trace (await_suspend dcheck_enabled sched p)) + 1.
Proof.
  pose proof (@cas_loop_lock_free sched p (state_ p) eq_refl) as H.
  unfold await_suspend. split_trace.
  repeat (rewrite interferences_app || rewrite interferences_cons).
  change (@interferences T E []) with 0.
  change (@cas_attempts T E []) with 0. simpl. exact H.
Qed.

Lemma external_edges_only_iteration (e : event T E) evs mid rest :
  external_edges_only ((e :: evs ++ mid) ++ rest) = true ->
  external_edges_only evs = true /\ external_edges_only rest = true.
Proof.
  rewrite external_edges_only_app, external_edges_only_cons,
    external_edges_only_app.
  intros H. apply andb_true_iff in H as [H Hrest].
  apply andb_true_iff in H as [_ H]. apply andb_true_iff in H as [H _]. auto.
Qed.

(** Along their edges the other threads either leave [state_] alone or
    move it once, out of [EMPTY], and the move is on record. *)
Lemma interfere_external_once (steps : list env_step) p q evs :
  interfere steps p = (q, evs) ->
  external_edges_only evs = true ->
  (state_ q = state_ p /\ interferences evs = 0) \/
  (state_ p = EMPTY /\ (state_ q = DETACHED \/ state_ q = HAS_AWAITER) /\
   In (Interfere EMPTY (state_ q)) evs).
Proof.
  revert p q evs; induction steps as [|st steps IH]; intros p q evs H Hext;
    simpl in H.
  - inversion H; subst. left. split; reflexivity.
  - destruct st as [s|h].
    + destruct (interfere steps (set_state p s)) as [q' evs'] eqn:Hi.
      inversion H; subst. simpl in Hext.
      apply andb_true_iff in Hext as [He Hext].
      apply external_edge_inv in He as [He Hs].
      destruct (IH (set_state p s) q evs' Hi Hext) as [[Hq _]|[Hq _]];
        simpl in Hq.
      * right. rewrite He, Hq. split; [reflexivity|]. split; [exact Hs|].
        now left.
      * destruct Hs; congruence.
    + destruct (IH (set_awaiter p h) q evs H Hext) as [Hq|Hq]; simpl in Hq; auto.
Qed.

(** Entered on [DETACHED] the loop returns at once. *)
Lemma cas_loop_from_detached sched p :
  cas_loop dcheck_enabled sched p DETACHED =
  {| ret := Returned false; final := p; trace := [Observe DETACHED] |}.
Proof. rewrite cas_loop_eq. reflexivity. Qed.

(** Entered on [HAS_AWAITER], with the other threads on their edges, the
    loop can only store [HAS_RESULT] and resume. *)
Lemma cas_loop_from_awaiter sched p state :
  let r := cas_loop dcheck_enabled sched p state in
  state = state_ p -> state = HAS_AWAITER ->
  external_edges_only (trace r) = true -> ret r <> Running ->
  ret r = Returned true /\ resumptions (trace r) = 1 /\
  transitions (trace r) = [(HAS_AWAITER, HAS_RESULT)] /\
  interferences (trace r) = 0.
Proof.
  apply cas_loop_rule; clear sched p state.
  - intros sched p. cbv zeta. intros _ H. discriminate.
  - intros sched p _. cbv zeta. intros _ H. discriminate.
  - intros p state _ _. cbv zeta. intros _ _ _ H. now contradiction H.
  - intros t sched p state p1 evs _ _ Hi Hs _. cbv zeta. intros Hst Ha Hext _.
    unfold after in Hext. cbn [trace] in Hext.
    apply external_edges_only_iteration in Hext as [He _].
    destruct (@interfere_external_once _ _ _ _ Hi He) as [[_ Hn]|[He' _]];
      [|congruence].
    apply interfere_frame in Hi as (_ & _ & Hr & _ & _ & Ht & _).
    split_trace.
    repeat (rewrite interferences_app || rewrite interferences_cons).
    rewrite Hr, Ht, Hn, Ha. simpl. auto.
  - intros t sched p state p1 evs _ _ Hi _ IH. cbv zeta in *.
    intros Hst Ha Hext Hrun.
    unfold after in Hext, Hrun. cbn [trace ret] in Hext, Hrun.
    apply external_edges_only_iteration in Hext as [He Hext].
    destruct (@interfere_external_once _ _ _ _ Hi He) as [[Hq Hn]|[He' _]];
      [|congruence].
    assert (Hp1 : state_ p1 = HAS_AWAITER) by congruence.
    destruct (IH eq_refl Hp1 Hext Hrun) as (I1 & I2 & I3 & I4).
    apply interfere_frame in Hi as (_ & _ & Hr & _ & _ & Ht & _).
    split_trace.
    repeat (rewrite interferences_app || rewrite interferences_cons).
    rewrite Hr, Ht, Hn, I2, I3, I4. simpl. auto.
Qed.

(** Entered on [EMPTY], with the other threads on their edges, the loop
    ends in one of three ways, told apart by what the other threads did. *)
Lemma cas_loop_from_empty sched p state :
  let r := cas_loop dcheck_enabled sched p state in
  state = state_ p -> state = EMPTY ->
  external_edges_only (trace r) = true -> ret r <> Running ->
  (In (Interfere EMPTY DETACHED) (trace r) /\ ret r = Returned false /\
   resumptions (trace r) = 0 /\ transitions (trace r) = []) \/
  (In (Interfere EMPTY HAS_AWAITER) (trace r) /\ ret r = Returned true /\
   resumptions (trace r) = 1 /\
   transitions (trace r) = [(HAS_AWAITER, HAS_RESULT)]) \/
  (interferences (trace r) = 0 /\ ret r = Returned true /\
   resumptions (trace r) = 0 /\ transitions (trace r) = [(EMPTY, HAS_RESULT)]).
Proof.
  apply cas_loop_rule; clear sched p state.
  - intros sched p. cbv zeta. intros _ H. discriminate.
  - intros sched p _. cbv zeta. intros _ H. discriminate.
  - intros p state _ _. cbv zeta. intros _ _ _ H. now contradiction H.
  - intros t sched p state p1 evs _ _ Hi Hs _. cbv zeta. intros Hst Ha Hext _.
    unfold after in Hext. cbn [trace] in Hext.
    apply external_edges_only_iteration in Hext as [He _].
    destruct (@interfere_external_once _ _ _ _ Hi He) as [[_ Hn]|[_ [Hq _]]];
      [|destruct Hq; congruence].
    apply interfere_frame in Hi as (_ & _ & Hr & _ & _ & Ht & _).
    right. right. split_trace.
    repeat (rewrite interferences_app || rewrite interferences_cons).
    rewrite Hr, Ht, Hn, Ha. simpl. auto.
  - intros t sched p state p1 evs _ _ Hi _ IH. cbv zeta in *.
    intros Hst Ha Hext Hrun.
    unfold after in Hext, Hrun. cbn [trace ret] in Hext, Hrun.
    apply external_edges_only_iteration in Hext as [He Hext].
    pose proof (interfere_frame _ _ Hi) as (_ & _ & Hr & _ & _ & Ht & _).
    split_trace.
    destruct (@interfere_external_once _ _ _ _ Hi He)
      as [[Hq Hn]|[_ [[Hq|Hq] Hin]]].
    + (* nothing happened: the failure was spurious *)
      assert (Hp1 : state_ p1 = EMPTY) by congruence.
      destruct (IH eq_refl Hp1 Hext Hrun)
        as [(I1 & I2 & I3 & I4)|[(I1 & I2 & I3 & I4)|(I1 & I2 & I3 & I4)]].
      * left. rewrite Hr, Ht, I3, I4. simpl. repeat split; auto.
        right. apply in_or_app. now right.
      * right. left. rewrite Hr, Ht, I3, I4. simpl. repeat split; auto.
        right. apply in_or_app. now right.
      * right. right.
        repeat (rewrite interferences_app || rewrite interferences_cons).
        rewrite Hr, Ht, Hn, I1, I3, I4. simpl. auto.
    + (* the handle was dropped meanwhile *)
      left. rewrite Hq in *. rewrite cas_loop_from_detached in *.
      rewrite Hr, Ht. simpl. repeat split; auto.
      right. apply in_or_app. left. apply in_or_app. now left.
    + (* a coroutine started to wait meanwhile *)
      right. left. rewrite Hq in Hin.
      destruct (@cas_loop_from_awaiter sched p1 (state_ p1) eq_refl Hq Hext Hrun)
        as (I1 & I2 & I3 & _).
      rewrite Hr, Ht, I2, I3. simpl. repeat split; auto.
      right. apply in_or_app. left. apply in_or_app. now left.
Qed.

(** X3: the race between finalization and the one other actor is settled
    in one of three ways.  When [await_suspend] is entered on [EMPTY], the
    other threads keep to their edges and the call has left its loop, then
    either the handle was dropped meanwhile and the call returns [false],
    having stored and resumed nothing; or a coroutine registered meanwhile
    and the call stores [HAS_RESULT] over [HAS_AWAITER] and resumes exactly
    once; or no other thread stored anything and the call stores
    [HAS_RESULT] over [EMPTY] and resumes nothing.  The failed [DCHECK] is
    none of the three. *)
Theorem X3_race_settled sched p :
  state_ p = EMPTY ->
  external_edges_only (trace (await_suspend dcheck_enabled sched p)) = true ->
  ret (await_suspend dcheck_enabled sched p) <> Running ->
  let r := await_suspend dcheck_enabled sched p in
  (In (Interfere EMPTY DETACHED) (trace r) /\ ret r = Returned false /\
   resumptions (trace r) = 0 /\ transitions (trace r) = [] /\
   state_ (final r) = DETACHED) \/
  (In (Interfere EMPTY HAS_AWAITER) (trace r) /\ ret r = Returned true /\
   resumptions (trace r) = 1 /\
   transitions (trace r) = [(HAS_AWAITER, HAS_RESULT)] /\
   state_ (final r) = HAS_RESULT) \/
  (interferences (trace r) = 0 /\ ret r = Returned true /\
   resumptions (trace r) = 0 /\ transitions (trace r) = [(EMPTY, HAS_RESULT)] /\
   state_ (final r) = HAS_RESULT).
Proof.
  intros Hp Hext Hrun.
  destruct (cas_loop_returns sched p (state_ p)) as [R1 _].
  destruct (cas_loop_states dcheck_enabled sched p (state_ p))
    as (_ & _ & _ & _ & R5 & _).
  unfold await_suspend in *. split_trace. simpl in Hext, Hrun.
  repeat (rewrite interferences_app || rewrite interferences_cons).
  destruct (@cas_loop_from_empty sched p (state_ p) eq_refl Hp Hext Hrun)
    as [(I1 & I2 & I3 & I4)|[(I1 & I2 & I3 & I4)|(I1 & I2 & I3 & I4)]].
  - left. simpl. repeat split; auto.
  - right. left. simpl. destruct (R1 I2) as [Hs _]. repeat split; auto.
  - right. right. simpl. destruct (R1 I2) as [Hs _]. repeat split; auto.
Qed.

(** Entered on [HAS_RESULT], with the other threads on their edges, the
    loop resumes nothing and leaves [HAS_RESULT]. *)
Lemma cas_loop_from_result sched p state :
  let r := cas_loop dcheck_enabled sched p state in
  state = state_ p -> state = HAS_RESULT ->
  external_edges_only (trace r) = true ->
  resumptions (trace r) = 0 /\ state_ (final r) = HAS_RESULT /\
  (dcheck_enabled = true -> ret r = DcheckFailed /\ cas_attempts (trace r) = 0) /\
  (dcheck_enabled = false -> ret r <> DcheckFailed).
Proof.
  apply cas_loop_rule; clear sched p state.
  - intros sched p. cbv zeta. intros _ H. discriminate.
  - intros sched p Hd. cbv zeta. intros Hst _ _. simpl.
    repeat split; auto; congruence.
  - intros p state _ Hc. cbv zeta. intros Hst Hs _. subst state.
    rewrite Hs in Hc. simpl in Hc. rewrite andb_true_r in Hc. simpl.
    repeat split; auto; congruence.
  - intros t sched p state p1 evs _ Hc Hi _ _. cbv zeta. intros Hst Hs _.
    rewrite Hs in Hc. simpl in Hc. rewrite andb_true_r in Hc.
    apply interfere_frame in Hi as (_ & _ & Hr & _).
    split_trace. rewrite Hr, Hs. simpl.
    repeat split; auto; congruence.
  - intros t sched p state p1 evs _ Hc Hi _ IH. cbv zeta in *.
    intros Hst Hs Hext.
    rewrite Hs in Hc. simpl in Hc. rewrite andb_true_r in Hc.
    unfold after in Hext. cbn [trace] in Hext.
    apply external_edges_only_iteration in Hext as [He Hext].
    destruct (@interfere_external_once _ _ _ _ Hi He) as [[Hq _]|[He' _]];
      [|congruence].
    assert (Hp1 : state_ p1 = HAS_RESULT) by congruence.
    destruct (IH eq_refl Hp1 Hext) as (I1 & I2 & I3 & I4).
    apply interfere_frame in Hi as (_ & _ & Hr & _).
    split_trace. rewrite Hr, I1. simpl.
    repeat split; auto; congruence.
Qed.

(** X4: a second finalization never resumes the continuation again.  When
    [await_suspend] has returned [true] and is called once more on the
    promise it left, with the other threads on their edges, the second
    call resumes nothing and leaves [HAS_RESULT], so that both calls
    together resume at most once; with [DCHECK] compiled in the second
    call dies in it before any exchange, with [DCHECK] compiled out it
    does not. *)
Theorem X4_second_finalization_resumes_nothing sched1 sched2 p :
  ret (await_suspend dcheck_enabled sched1 p) = Returned true ->
  external_edges_only
    (trace (await_suspend dcheck_enabled sched2
              (final (await_suspend dcheck_enabled sched1 p)))) = true ->
  let r1 := await_suspend dcheck_enabled sched1 p in
  let r2 := await_suspend dcheck_enabled sched2 (final r1) in
  resumptions (trace r2) = 0 /\
  resumptions (trace r1) + resumptions (trace r2) <= 1 /\
  state_ (final r2) = HAS_RESULT /\
  (dcheck_enabled = true ->
     ret r2 = DcheckFailed /\ cas_attempts (trace r2) = 0) /\
  (dcheck_enabled = false -> ret r2 <> DcheckFailed).
Proof.
  intros Hret Hext r1 r2.
  assert (Hs : state_ (final r1) = HAS_RESULT).
  { destruct (cas_loop_returns sched1 p (state_ p)) as [R1 _].
    apply R1. exact Hret. }
  assert (H1 : resumptions (trace r1) <= 1).
  { destruct (cas_loop_resumes dcheck_enabled sched1 p (state_ p)) as (R & _).
    subst r1. unfold await_suspend. split_trace. simpl. rewrite R.
    destruct (transitions _) as [|[[] ?] ?]; lia. }
  assert (Hloop : external_edges_only
            (trace (cas_loop dcheck_enabled sched2 (final r1)
                      (state_ (final r1)))) = true).
  { unfold await_suspend in Hext. unfold after in Hext. exact Hext. }
  destruct (@cas_loop_from_result sched2 (final r1) (state_ (final r1))
              eq_refl Hs Hloop) as (I1 & I2 & I3 & I4).
  assert (H2 : resumptions (trace r2) = 0).
  { subst r2. unfold await_suspend. split_trace. simpl. exact I1. }
  split; [exact H2|]. split; [lia|]. split; [exact I2|].
  split; [|exact I4].
  intros Hd. destruct (I3 Hd) as [J1 J2]. split; [exact J1|].
  subst r2. unfold await_suspend. split_trace. simpl. exact J2.
Qed.

(** The resumption closes the run, right behind the successful exchange. *)
Lemma cas_loop_resume_last sched p state :
  let r := cas_loop dcheck_enabled sched p state in
  forall h, In (Resume h) (trace r) ->
  (exists pre, trace r = pre ++ [CasOk HAS_AWAITER HAS_RESULT; Resume h] /\
               resumptions pre = 0) /\
  ret r = Returned true /\ state_ (final r) = HAS_RESULT.
Proof.
  apply cas_loop_rule; clear sched p state.
  - intros sched p. cbv zeta. intros h [H|[]]. discriminate.
  - intros sched p _. cbv zeta. intros h [H|[]]. discriminate.
  - intros p state _ _. cbv zeta. intros h [H|[]]. discriminate.
  - intros t sched p state p1 evs _ _ Hi _ _. cbv zeta. intros h Hin.
    apply interfere_frame in Hi as (_ & _ & Hr & _).
    unfold after, resume_awaiter in *. cbn [trace ret final] in *.
    apply in_app_or in Hin as [Hin|Hin].
    { exfalso. revert Hin. apply no_resume_in.
      rewrite resumptions_cons, resumptions_app, Hr. reflexivity. }
    destruct (state == HAS_AWAITER) eqn:Ha; [|destruct Hin].
    apply PromiseState_eqb_eq in Ha. subst state.
    destruct Hin as [Hin|[]]. inversion Hin; subst h. simpl.
    split; [|split; reflexivity].
    exists (Observe HAS_AWAITER :: evs). split.
    + now rewrite <- app_assoc.
    + rewrite resumptions_cons, Hr. reflexivity.
  - intros t sched p state p1 evs _ _ Hi _ IH. cbv zeta in *. intros h Hin.
    apply interfere_frame in Hi as (_ & _ & Hr & _).
    unfold after in *. cbn [trace ret final] in *.
    apply in_app_or in Hin as [Hin|Hin].
    { exfalso. revert Hin. apply no_resume_in.
      rewrite resumptions_cons, resumptions_app, Hr. reflexivity. }
    destruct (IH h Hin) as ((pre & Htr & Hpre) & I2 & I3).
    split; [|split; assumption].
    exists ((Observe state :: evs ++ [CasFail state (state_ p1)]) ++ pre).
    split.
    + rewrite Htr. now rewrite app_assoc.
    + rewrite resumptions_app, resumptions_cons, resumptions_app, Hr, Hpre.
      reflexivity.
Qed.

(** X5: the continuation is resumed last and only after the result is
    published.  When [await_suspend] resumes a handle, the resumption is
    the last access of the call and comes right behind the exchange that
    stored [HAS_RESULT] over [HAS_AWAITER]; nothing was resumed before it,
    the call returns [true], [state_] is left [HAS_RESULT] and [result_] is
    what it was when the call began. *)
Theorem X5_resumed_after_result_published sched p h :
  In (Resume h) (trace (await_suspend dcheck_enabled sched p)) ->
  let r := await_suspend dcheck_enabled sched p in
  (exists pre, trace r = pre ++ [CasOk HAS_AWAITER HAS_RESULT; Resume h] /\
               resumptions pre = 0) /\
  ret r = Returned true /\ state_ (final r) = HAS_RESULT /\
  result_ (final r) = result_ p.
Proof.
  intros Hin r.
  destruct (cas_loop_states dcheck_enabled sched p (state_ p))
    as (_ & _ & _ & _ & _ & _ & Hres & _).
  subst r. unfold await_suspend, after in *. cbn [trace ret final] in *.
  destruct Hin as [Hin|Hin]; [discriminate|].
  destruct (@cas_loop_resume_last sched p (state_ p) h Hin)
    as ((pre & Htr & Hpre) & I2 & I3).
  split; [|auto].
  exists (Load (state_ p) :: pre). split.
  - simpl. now rewrite Htr.
  - rewrite resumptions_cons, Hpre. reflexivity.
Qed.

(** What the other threads do does not depend on the result cell. *)
Lemma interfere_set_result (steps : list env_step) p q evs (r0 : Try T E) :
  interfere steps p = (q, evs) ->
  interfere steps (set_result p r0) = (set_result q r0, evs).
Proof.
  revert p q evs; induction steps as [|st steps IH]; intros p q evs H;
    simpl in *.
  - inversion H; subst. reflexivity.
  - destruct st as [s|h].
    + destruct (interfere steps (set_state p s)) as [q' evs'] eqn:Hi.
      inversion H; subst.
      apply IH in Hi. simpl in Hi.
      change (set_state (set_result p r0) s) with (set_result (set_state p s) r0).
      now rewrite Hi.
    + apply (IH (set_awaiter p h) q evs) in H. exact H.
Qed.

Lemma cas_loop_set_result sched : forall p state (r0 : Try T E),
  cas_loop dcheck_enabled sched (set_result p r0) state =
  {| ret := ret (cas_loop dcheck_enabled sched p state);
     final := set_result (final (cas_loop dcheck_enabled sched p state)) r0;
     trace := trace (cas_loop dcheck_enabled sched p state) |}.
Proof.
  induction sched as [|t sched IH]; intros p state r0; rewrite !cas_loop_eq.
  - destruct (state == DETACHED); [reflexivity|].
    destruct (dcheck_enabled && (state == HAS_RESULT)); reflexivity.
  - destruct (state == DETACHED); [reflexivity|].
    destruct (dcheck_enabled && (state == HAS_RESULT)); [reflexivity|].
    destruct (interfere (stores t) p) as [p1 evs] eqn:Hi.
    rewrite (@interfere_set_result _ _ _ _ r0 Hi).
    change (state_ (set_result p1 r0)) with (state_ p1).
    destruct ((state_ p1 == state) && negb (spurious t)).
    + reflexivity.
    + rewrite IH. reflexivity.
Qed.

(** X6: finalization neither reads nor writes the result cell.  Replacing
    [result_] of a frame by anything changes nothing in what
    [await_ready] and [await_suspend] return, in any access they make or
    in the handle they resume; the promise they leave has the replaced
    [result_] and is otherwise the same.  They leave [result_] and
    [executor_] as they found them. *)
Theorem X6_finalization_ignores_result sched p (r0 : Try T E) :
  let r := await_suspend dcheck_enabled sched p in
  await_suspend dcheck_enabled sched (set_result p r0) =
    {| ret := ret r; final := set_result (final r) r0; trace := trace r |} /\
  ret (await_ready (set_result p r0)) = ret (await_ready p) /\
  trace (await_ready (set_result p r0)) = trace (await_ready p) /\
  result_ (final r) = result_ p /\ executor_ (final r) = executor_ p.
Proof.
  destruct (cas_loop_states dcheck_enabled sched p (state_ p))
    as (_ & _ & _ & _ & _ & _ & Hres & Hex & _).
  split; [|repeat split; assumption].
  unfold await_suspend.
  change (state_ (set_result p r0)) with (state_ p).
  rewrite cas_loop_set_result. reflexivity.
Qed.

Lemma interference_counted (e : event T E) tr :
  In e tr -> is_interfere e = true -> 1 <= interferences tr.
Proof.
  induction tr as [|e' tr IH]; intros Hin He; [destruct Hin|].
  rewrite interferences_cons. destruct Hin as [->|Hin].
  - rewrite He. lia.
  - specialize (IH Hin He). lia.
Qed.

Lemma external_edges_only_in tr old new :
  external_edges_only tr = true -> In (Interfere old new) tr ->
  external_edge old new = true.
Proof.
  induction tr as [|e tr IH]; intros Hext Hin; [destruct Hin|].
  rewrite external_edges_only_cons in Hext.
  apply andb_true_iff in Hext as [He Hext].
  destruct Hin as [->|Hin]; [exact He|now apply IH].
Qed.

(** Every store of another thread to [state_] is on record. *)
Lemma interfere_records (steps : list env_step) p q evs s :
  interfere steps p = (q, evs) -> In (StoreState s) steps ->
  exists old, In (Interfere old s) evs.
Proof.
  revert p q evs; induction steps as [|st steps IH]; intros p q evs H Hin;
    [destruct Hin|].
  simpl in H. destruct st as [s'|h].
  - destruct (interfere steps (set_state p s')) as [q' evs'] eqn:Hi.
    inversion H; subst. destruct Hin as [Hin|Hin].
    + inversion Hin; subst. exists (state_ p). now left.
    + destruct (IH _ _ _ Hi Hin) as [old Hold]. exists old. now right.
  - destruct Hin as [Hin|Hin]; [discriminate|].
    apply (IH (set_awaiter p h) q evs H Hin).
Qed.

(** Along their edges the store on record is the one [state_] is left
    with. *)
Lemma interfere_external_last (steps : list env_step) p q evs old new :
  interfere steps p = (q, evs) -> external_edges_only evs = true ->
  In (Interfere old new) evs -> state_ q = new.
Proof.
  revert p q evs; induction steps as [|st steps IH]; intros p q evs H Hext Hin;
    simpl in H.
  - inversion H; subst. destruct Hin.
  - destruct st as [s|h].
    + destruct (interfere steps (set_state p s)) as [q' evs'] eqn:Hi.
      inversion H; subst. simpl in Hext.
      apply andb_true_iff in Hext as [He Hext].
      apply external_edge_inv in He as [He Hs].
      destruct (@interfere_external_once _ _ _ _ Hi Hext)
        as [[Hq Hn]|[Hq _]]; simpl in Hq.
      * destruct Hin as [Hin|Hin]; [inversion Hin; congruence|].
        apply interference_counted in Hin; [lia|reflexivity].
      * destruct Hs; congruence.
    + apply (IH (set_awaiter p h) q evs H Hext Hin).
Qed.

(** A store that is there at the first attempt is on record. *)
Lemma cas_loop_first_store t rest p s :
  In (StoreState s) (stores t) ->
  exists old,
    In (Interfere old s) (trace (cas_loop dcheck_enabled (t :: rest) p EMPTY)).
Proof.
  intros Hstore. rewrite cas_loop_eq. cbn [PromiseState_eqb].
  rewrite andb_false_r.
  destruct (interfere (stores t) p) as [p1 evs] eqn:Hi.
  destruct (@interfere_records _ _ _ _ _ Hi Hstore) as [old Hold].
  exists old.
  destruct ((state_ p1 == EMPTY) && negb (spurious t));
    unfold after; cbn [trace];
    apply in_or_app; left; right; apply in_or_app; now left.
Qed.

(** A registration that the loop meets is answered by a resumption. *)
Lemma cas_loop_meets_awaiter sched p state :
  let r := cas_loop dcheck_enabled sched p state in
  state = state_ p ->
  external_edges_only (trace r) = true -> ret r <> Running ->
  In (Interfere EMPTY HAS_AWAITER) (trace r) ->
  ret r = Returned true /\ resumptions (trace r) = 1.
Proof.
  apply cas_loop_rule; clear sched p state.
  - intros sched p. cbv zeta. intros _ _ _ [H|[]]. discriminate.
  - intros sched p _. cbv zeta. intros _ _ _ [H|[]]. discriminate.
  - intros p state _ _. cbv zeta. intros _ _ H. now contradiction H.
  - intros t sched p state p1 evs _ _ Hi Hs _. cbv zeta. intros Hst Hext _ Hin.
    unfold after, resume_awaiter in *. cbn [trace ret] in *.
    apply external_edges_only_iteration in Hext as [He _].
    assert (Hev : In (Interfere EMPTY HAS_AWAITER) evs).
    { apply in_app_or in Hin as [Hin|Hin].
      - destruct Hin as [Hin|Hin]; [discriminate|].
        apply in_app_or in Hin as [Hin|[Hin|[]]]; [exact Hin|discriminate].
      - destruct (state == HAS_AWAITER); [|destruct Hin].
        destruct Hin as [Hin|[]]. discriminate. }
    pose proof (@interfere_external_last _ _ _ _ _ _ Hi He Hev) as Hq.
    apply interfere_frame in Hi as (_ & _ & Hr & _).
    split; [reflexivity|].
    rewrite resumptions_app, resumptions_cons, resumptions_app, Hr.
    rewrite <- Hs, Hq. reflexivity.
  - intros t sched p state p1 evs _ _ Hi _ IH. cbv zeta in *.
    intros Hst Hext Hrun Hin.
    unfold after in *. cbn [trace ret] in *.
    apply external_edges_only_iteration in Hext as [He Hext].
    pose proof (interfere_frame _ _ Hi) as (_ & _ & Hr & _).
    rewrite resumptions_app, resumptions_cons, resumptions_app, Hr.
    apply in_app_or in Hin as [Hin|Hin].
    + assert (Hev : In (Interfere EMPTY HAS_AWAITER) evs).
      { destruct Hin as [Hin|Hin]; [discriminate|].
        apply in_app_or in Hin as [Hin|[Hin|[]]]; [exact Hin|discriminate]. }
      pose proof (@interfere_external_last _ _ _ _ _ _ Hi He Hev) as Hq.
      destruct (@cas_loop_from_awaiter sched p1 (state_ p1) eq_refl Hq Hext Hrun)
        as (I1 & I2 & _).
      rewrite I2. split; [exact I1|reflexivity].
    + destruct (IH eq_refl Hext Hrun Hin) as [I1 I2].
      rewrite I2. split; [exact I1|reflexivity].
Qed.

Lemma resume_in tr : 1 <= @resumptions T E tr -> exists h, In (Resume h) tr.
Proof.
  induction tr as [|e tr IH]; unfold resumptions; simpl; [lia|].
  destruct e; simpl; intros H;
    try (destruct (IH H) as [h Hh]; exists h; now right).
  exists h. now left.
Qed.

(** C1: in every execution of [FinalSuspender::await_suspend], on every
    schedule of the other threads and of spurious failures, the stored
    continuation is resumed exactly once when the successful
    compare-exchange replaced [HAS_AWAITER], and not at all when it replaced
    [EMPTY], when no exchange succeeded, or when the call returned [false]
    on [DETACHED]; it is never resumed twice, and the handle resumed is the
    promise's [awaiter_].  The resumption is owed: with the other threads
    on their edges and a schedule that offers two attempts beyond its
    spurious failures, a call entered on [HAS_AWAITER] returns [true] and
    resumes [awaiter_] exactly once; a call entered on [EMPTY] does so when
    a coroutine registers meanwhile, in particular when the registration is
    there at the first attempt, and resumes nothing when none registers; a
    call entered on [DETACHED] returns [false] and resumes nothing. *)
Theorem C1_single_resumption sched p :
  let r := await_suspend dcheck_enabled sched p in
  (cas_prior (trace r) = Some HAS_AWAITER -> resumptions (trace r) = 1) /\
  (cas_prior (trace r) = Some EMPTY -> resumptions (trace r) = 0) /\
  (cas_prior (trace r) = None -> resumptions (trace r) = 0) /\
  (ret r = Returned false -> resumptions (trace r) = 0) /\
  resumptions (trace r) <= 1 /\
  (forall h, In (Resume h) (trace r) -> h = awaiter_ (final r)) /\
  (state_ p = HAS_AWAITER ->
   external_edges_only (trace r) = true ->
   spurious_failures sched + 2 <= length sched ->
   ret r = Returned true /\ resumptions (trace r) = 1 /\
   In (Resume (awaiter_ (final r))) (trace r)) /\
  (state_ p = EMPTY ->
   external_edges_only (trace r) = true ->
   spurious_failures sched + 2 <= length sched ->
   (In (Interfere EMPTY HAS_AWAITER) (trace r) ->
      ret r = Returned true /\ resumptions (trace r) = 1 /\
      In (Resume (awaiter_ (final r))) (trace r)) /\
   (forall t rest, sched = t :: rest ->
      In (StoreState HAS_AWAITER) (stores t) ->
      ret r = Returned true /\ resumptions (trace r) = 1 /\
      In (Resume (awaiter_ (final r))) (trace r)) /\
   (~ In (Interfere EMPTY HAS_AWAITER) (trace r) ->
      resumptions (trace r) = 0)) /\
  (state_ p = DETACHED ->
   ret r = Returned false /\ resumptions (trace r) = 0).
Proof.
  destruct (cas_loop_resumes dcheck_enabled sched p (state_ p)) as (H1 & H2 & H3).
  unfold await_suspend, after. cbn [trace ret final].
  set (r := cas_loop dcheck_enabled sched p (state_ p)) in *.
  change (cas_prior ([Load (state_ p)] ++ trace r)) with (cas_prior (trace r)).
  change (resumptions ([Load (state_ p)] ++ trace r)) with (resumptions (trace r)).
  change (external_edges_only ([Load (state_ p)] ++ trace r))
    with (external_edges_only (trace r)).
  assert (Hown : forall h, In (Resume h) ([Load (state_ p)] ++ trace r) ->
                           h = awaiter_ (final r)).
  { intros h [H|H]; [discriminate|]. now apply H3. }
  assert (Hresumed : resumptions (trace r) = 1 ->
                     In (Resume (awaiter_ (final r))) ([Load (state_ p)] ++ trace r)).
  { intros Hone. destruct (@resume_in (trace r)) as [h Hh]; [lia|].
    rewrite <- (H3 h Hh). now right. }
  assert (Hleft : external_edges_only (trace r) = true ->
                  spurious_failures sched + 2 <= length sched ->
                  ret r <> Running).
  { intros Hext Hlen.
    destruct (@cas_loop_attempts T E dcheck_enabled sched p (state_ p)
                eq_refl Hext) as (_ & _ & Hrun).
    apply Hrun. destruct (state_ p == EMPTY); lia. }
  split; [intros Hc; rewrite H1, Hc; reflexivity|].
  split; [intros Hc; rewrite H1, Hc; reflexivity|].
  split; [intros Hc; rewrite H1, Hc; reflexivity|].
  split; [intros Hr; rewrite H1, (H2 Hr); reflexivity|].
  split; [rewrite H1; destruct (cas_prior (trace r)) as [[]|]; lia|].
  split; [exact Hown|].
  split; [|split].
  - (* entered on HAS_AWAITER *)
    intros Hs Hext Hlen.
    destruct (@cas_loop_from_awaiter sched p (state_ p) eq_refl Hs Hext
                (Hleft Hext Hlen)) as (I1 & I2 & _).
    split; [exact I1|]. split; [exact I2|]. now apply Hresumed.
  - (* entered on EMPTY *)
    intros Hs Hext Hlen. pose proof (Hleft Hext Hlen) as Hrun.
    assert (Hmeet : In (Interfere EMPTY HAS_AWAITER) (trace r) ->
                    ret r = Returned true /\ resumptions (trace r) = 1 /\
                    In (Resume (awaiter_ (final r)))
                       ([Load (state_ p)] ++ trace r)).
    { intros Hin.
      destruct (@cas_loop_meets_awaiter sched p (state_ p) eq_refl Hext Hrun Hin)
        as [I1 I2].
      split; [exact I1|]. split; [exact I2|]. now apply Hresumed. }
    split; [|split].
    + intros [Hin|Hin]; [discriminate|]. now apply Hmeet.
    + intros t rest Hsched Hstore. apply Hmeet.
      destruct (@cas_loop_first_store t rest p HAS_AWAITER Hstore) as [old Hold].
      assert (Hin : In (Interfere old HAS_AWAITER) (trace r)).
      { subst r. rewrite Hsched, Hs. exact Hold. }
      pose proof (@external_edges_only_in _ _ _ Hext Hin) as Hedge.
      apply external_edge_inv in Hedge as [-> _]. exact Hin.
    + intros Hno.
      destruct (@cas_loop_from_empty sched p (state_ p) eq_refl Hs Hext Hrun)
        as [(_ & _ & I3 & _)|[(I1 & _)|(_ & _ & I3 & _)]].
      * exact I3.
      * exfalso. apply Hno. right. exact I1.
      * exact I3.
  - (* entered on DETACHED *)
    intros Hs. subst r. rewrite Hs, cas_loop_from_detached. simpl. auto.
Qed.

End Progress.

(** C1 on the racing schedule: entered on [EMPTY], the call meets the
    registration of the coroutine with handle 9 and resumes it, once. *)
Lemma C1_witness :
  resumptions (trace (await_suspend true racing_schedule (sample_frame EMPTY))) = 1 /\
  In (Resume 9%N) (trace (await_suspend true racing_schedule (sample_frame EMPTY))).
Proof.
  pose proof (@C1_single_resumption nat nat true racing_schedule
                (sample_frame EMPTY)) as H.
  cbv zeta in H.
  destruct H as (_ & _ & _ & _ & _ & _ & _ & Hempty & _).
  destruct (Hempty eq_refl eq_refl) as (Hmeet & _); [simpl; lia|].
  destruct Hmeet as (_ & Hone & Hin); [simpl; auto 20|].
  split; [exact Hone|exact Hin].
Defined.

(** The race of X3 on the racing schedule: a coroutine registers while the
    finalization is in its loop, and is resumed. *)
Lemma X3_witness :
  (state_ (sample_frame EMPTY) = EMPTY /\
   external_edges_only
     (trace (await_suspend true racing_schedule (sample_frame EMPTY))) = true /\
   ret (await_suspend true racing_schedule (sample_frame EMPTY)) <> Running) /\
  let r := await_suspend true racing_schedule (sample_frame EMPTY) in
  (In (Interfere EMPTY DETACHED) (trace r) /\ ret r = Returned false /\
   resumptions (trace r) = 0 /\ transitions (trace r) = [] /\
   state_ (final r) = DETACHED) \/
  (In (Interfere EMPTY HAS_AWAITER) (trace r) /\ ret r = Returned true /\
   resumptions (trace r) = 1 /\
   transitions (trace r) = [(HAS_AWAITER, HAS_RESULT)] /\
   state_ (final r) = HAS_RESULT) \/
  (interferences (trace r) = 0 /\ ret r = Returned true /\
   resumptions (trace r) = 0 /\ transitions (trace r) = [(EMPTY, HAS_RESULT)] /\
   state_ (final r) = HAS_RESULT).
Proof.
  split; [split; [reflexivity|split; [reflexivity|discriminate]]|].
  apply (@X3_race_settled nat nat true racing_schedule (sample_frame EMPTY));
    [reflexivity|reflexivity|discriminate].
Defined.

(** X4 on a frame with a waiting coroutine, finalized twice in a build
    without [DCHECK]. *)
Lemma X4_witness :
  (ret (await_suspend false [quiet] (sample_frame HAS_AWAITER)) = Returned true /\
   external_edges_only
     (trace (await_suspend false [quiet]
               (final (await_suspend false [quiet] (sample_frame HAS_AWAITER)))))
     = true) /\
  let r1 := await_suspend false [quiet] (sample_frame HAS_AWAITER) in
  let r2 := await_suspend false [quiet] (final r1) in
  resumptions (trace r2) = 0 /\
  resumptions (trace r1) + resumptions (trace r2) <= 1 /\
  state_ (final r2) = HAS_RESULT /\
  (false = true -> ret r2 = DcheckFailed /\ cas_attempts (trace r2) = 0) /\
  (false = false -> ret r2 <> DcheckFailed).
Proof.
  split; [split; reflexivity|].
  apply (@X4_second_finalization_resumes_nothing nat nat false [quiet] [quiet]
           (sample_frame HAS_AWAITER)); reflexivity.
Defined.

(** X5 on a frame with the coroutine of handle 7 waiting. *)
Lemma X5_witness :
  In (Resume 7%N) (trace (await_suspend true [quiet] (sample_frame HAS_AWAITER))) /\
  let r := await_suspend true [quiet] (sample_frame HAS_AWAITER) in
  (exists pre, trace r = pre ++ [CasOk HAS_AWAITER HAS_RESULT; Resume 7%N] /\
               resumptions pre = 0) /\
  ret r = Returned true /\ state_ (final r) = HAS_RESULT /\
  result_ (final r) = result_ (sample_frame HAS_AWAITER).
Proof.
  split; [simpl; auto|].
  apply (@X5_resumed_after_result_published nat nat true [quiet]
           (sample_frame HAS_AWAITER) 7%N).
  simpl. auto.
Defined.

(** ** The hooks and the finalization together *)

(** [co_return 4294967301LL] in a coroutine returning [int] stores 5. *)
Example return_value_converts :
  result_ (final (return_value int_of_long_long 4294967301%Z (int_frame EMPTY)))
  = TryValue 5%Z.
Proof. reflexivity. Qed.

Section Completion.
Context {T E X : Type}.
Variable from_exception_ptr : X -> E.


(** X8: the hooks do not guard against a second call; the last one
    decides.  [return_value] and [unhandled_exception] called on a promise
    that a hook has already completed leave exactly the promise they
    leave on the untouched one, so the earlier result is gone; and
    [return_void] after an exception leaves the exception in place. *)
Theorem X8_last_hook_decides {U : Type} (to_T : U -> T) (c : completion X T)
  (v : U) (e e' : X) (p : Promise T E) (pv : Promise unit E) :
  let earlier := final (body_completion from_exception_ptr c p) in
  final (return_value to_T v earlier) = final (return_value to_T v p) /\
  final (unhandled_exception from_exception_ptr e earlier) =
    final (unhandled_exception from_exception_ptr e p) /\
  result_ (final (unhandled_exception from_exception_ptr e
                    (final (return_value to_T v p)))) =
    TryException (from_exception_ptr e) /\
  result_ (final (return_value to_T v
                    (final (unhandled_exception from_exception_ptr e p)))) =
    TryValue (to_T v) /\
  result_ (final (return_void
                    (final (unhandled_exception from_exception_ptr e' pv)))) =
    TryException (from_exception_ptr e').
Proof.
  simpl. repeat split; destruct c; reflexivity.
Qed.

End Completion.
